(** * Job-Fetcher-app: the résumé/job scoring engine of [app.js]

    A shallow embedding of the scoring functions of [app.js]
    ([cleanAndTokenize], [extractKeywords], [buildTermFreq], [computeIdf],
    [tfidfVector], [dotProduct], [magnitude], [cosineSimilarity],
    [semanticSimilarity], [keywordMatchPercentage], [finalMatchScore] and the
    ranking done by the [/match] route), together with the parts of the
    JavaScript runtime and of the [natural] package that they call.

    Conventions of the embedding:
    - numbers are modelled twice. In the main development a number is a
      real number or [NaN] and arithmetic is exact: this is the code with
      the rounding and the overflow of double precision left out. The
      module [Binary64] has the numeric functions again, over the
      double-precision numbers of IEEE 754 and with their rounding; the
      statements that rounding decides are made there;
    - a string is a sequence of 8-bit characters; the code treats every
      character outside ASCII like any other character that its second
      pattern rejects;
    - a plain object used as a table ([freq], [tf], [df], [idf]) is the list
      of its own properties in creation order, and a read of a name that is
      not among them finds the member of [Object.prototype] of that name,
      if there is one;
    - a [null] or [undefined] argument is [None]. *)

From Stdlib Require Import List String Ascii Bool Arith ZArith NArith Lia.
From Stdlib Require Import Reals Lra Permutation Sorted.
From Stdlib Require Import DecimalString DecimalN.
From Stdlib Require Import SpecFloat.
Import ListNotations.

Local Open Scope string_scope.
Local Open Scope list_scope.

(** ** The JavaScript runtime *)

Module JS.

(** *** Numbers *)

(** A value of type number: [Num x], or [NaN]. *)
Inductive maybeNaN (A : Type) : Type :=
| Num (a : A)
| NaN.
Arguments Num {A} a.
Arguments NaN {A}.

(** Real-valued numbers, and the integer-valued results of [Math.round]. *)
Definition num := maybeNaN R.
Definition int := maybeNaN Z.

Definition lift2 {A B C} (f : A -> B -> C) (x : maybeNaN A) (y : maybeNaN B)
  : maybeNaN C :=
  match x, y with
  | Num a, Num b => Num (f a b)
  | _, _ => NaN
  end.

Definition nadd : num -> num -> num := lift2 Rplus.
Definition nmul : num -> num -> num := lift2 Rmult.
Definition ndiv : num -> num -> num := lift2 Rdiv.
Definition isub : int -> int -> int := lift2 Z.sub.

Definition toNum (i : int) : num :=
  match i with
  | Num z => Num (IZR z)
  | NaN => NaN
  end.

(** [x === 0] *)
Definition strictEqZero (x : num) : bool :=
  match x with
  | Num r => if Req_dec_T r 0 then true else false
  | NaN => false
  end.

(** [Math.sqrt], on the non-negative numbers the code gives it. *)
Definition Math_sqrt (x : num) : num :=
  match x with
  | Num r => Num (sqrt r)
  | NaN => NaN
  end.

(** [Math.round(x)] is [floor(x + 0.5)]: ties go up. *)
Definition Math_round (x : num) : int :=
  match x with
  | Num r => Num (Zfloor (r + / 2))
  | NaN => NaN
  end.

(** *** Arrays *)

(** [a[i]] used as an operand: a read past the end gives [undefined],
    which arithmetic turns into [NaN]. *)
Definition index (a : list num) (i : nat) : num :=
  match nth_error a i with
  | Some x => x
  | None => NaN
  end.

(** [for (let i = 0; i < n; i++) s = body(s, i)] *)
Definition for_loop {S} (n : nat) (body : S -> nat -> S) (s : S) : S :=
  fold_left body (seq 0 n) s.

(** [a.includes(x)] on an array of strings. *)
Definition includes (a : list string) (x : string) : bool :=
  existsb (String.eqb x) a.

(** [Array.prototype.sort(comparefn)]: the sort is stable (ECMAScript
    2019), [a] stays before [b] unless [comparefn(a, b) > 0], and a
    comparator result of [NaN] counts as [0]. Insertion into the sorted
    tail, each element going in front of the first one it need not
    follow; for a comparator that is a consistent ordering every stable
    sort gives this result. *)
Definition staysBefore (v : int) : bool :=
  match v with
  | Num z => (z <=? 0)%Z
  | NaN => true
  end.

Fixpoint insert {A} (comparefn : A -> A -> int) (x : A) (l : list A) : list A :=
  match l with
  | [] => [x]
  | y :: l' =>
      if staysBefore (comparefn x y) then x :: l
      else y :: insert comparefn x l'
  end.

Definition Array_sort {A} (comparefn : A -> A -> int) (l : list A) : list A :=
  fold_right (insert comparefn) [] l.

(** [a.slice(0, n)] for a count [n]. *)
Definition slice0 {A} (n : nat) (l : list A) : list A := firstn n l.

(** *** Sets of strings

    A [Set] keeps its members in insertion order; [Array.from] and the
    spread of a set list them in that order. *)
Definition Set_has (s : list string) (x : string) : bool :=
  existsb (String.eqb x) s.

Definition Set_add (s : list string) (x : string) : list string :=
  if Set_has s x then s else s ++ [x].

(** [new Set(l)] *)
Definition Set_of (l : list string) : list string :=
  fold_left Set_add l [].

(** *** Objects used as tables *)

Definition obj (V : Type) := list (string * V).

Fixpoint get {V} (o : obj V) (k : string) : option V :=
  match o with
  | [] => None
  | (k', v) :: o' => if String.eqb k' k then Some v else get o' k
  end.

(** [o[k] = v]: an existing property keeps its place, a new one goes last. *)
Fixpoint set {V} (o : obj V) (k : string) (v : V) : obj V :=
  match o with
  | [] => [(k, v)]
  | (k', v') :: o' =>
      if String.eqb k' k then (k', v) :: o' else (k', v') :: set o' k v
  end.

(** The names of the members of [Object.prototype], which an object
    created by [{}] inherits. *)
Definition prototypeMembers : list string :=
  ["constructor"; "hasOwnProperty"; "isPrototypeOf"; "propertyIsEnumerable";
   "toLocaleString"; "toString"; "valueOf"; "__defineGetter__";
   "__defineSetter__"; "__lookupGetter__"; "__lookupSetter__"; "__proto__"].

Definition isPrototypeMember (k : string) : bool := includes prototypeMembers k.

(** What a read [o[k]] finds: an own property, a member of the prototype
    (a function or an object), or nothing. *)
Inductive lookup (V : Type) : Type :=
| Own (v : V)
| Inherited
| Undefined.
Arguments Own {V} v.
Arguments Inherited {V}.
Arguments Undefined {V}.

Definition read {V} (o : obj V) (k : string) : lookup V :=
  match get o k with
  | Some v => Own v
  | None => if isPrototypeMember k then Inherited else Undefined
  end.

(** [o[k] = v] for a number or a string [v]: the setter of [__proto__]
    ignores such a value, any other name becomes or stays an own
    property. *)
Definition write {V} (o : obj V) (k : string) (v : V) : obj V :=
  if String.eqb k "__proto__" then o else set o k v.

(** A property of a table of counts: a count, or the text that [+] makes
    of a function or an object and a number. *)
Inductive cell : Type :=
| Count (n : nat)
| Text.

(** [(o[k] || 0) + w]: a function, an object and a non-empty text are
    truthy, and [+] with one of them builds a text. *)
Definition orZeroPlus (x : lookup cell) (w : nat) : cell :=
  match x with
  | Own (Count n) => Count (n + w)
  | Own Text | Inherited => Text
  | Undefined => Count w
  end.

(** [b - a] on two properties of a table of counts: a text that is not a
    numeral counts as [NaN]. *)
Definition minus (b a : cell) : int :=
  match b, a with
  | Count n, Count m => Num (Z.of_nat n - Z.of_nat m)%Z
  | _, _ => NaN
  end.

(** An operand of [*]: a number, or a value whose conversion to a number
    is [NaN] (a function, an object, a text that is not a numeral). *)
Inductive operand : Type :=
| Numeric (x : R)
| NotNumeric.

Definition times (x y : operand) : num :=
  match x, y with
  | Numeric a, Numeric b => Num (a * b)%R
  | _, _ => NaN
  end.

(** [o[k] || 0] read from a table of counts. *)
Definition countOrZero (x : lookup cell) : operand :=
  match x with
  | Own (Count n) => Numeric (INR n)
  | Own Text | Inherited => NotNumeric
  | Undefined => Numeric 0%R
  end.

(** [o[k] || 0] read from a table of numbers: [NaN] and [0] are falsy. *)
Definition numberOrZero (x : lookup num) : operand :=
  match x with
  | Own (Num r) => Numeric r
  | Own NaN => Numeric 0%R
  | Inherited => NotNumeric
  | Undefined => Numeric 0%R
  end.

Definition isDigit (c : ascii) : bool :=
  ((48 <=? nat_of_ascii c) && (nat_of_ascii c <=? 57))%nat.

Fixpoint digitsValue (s : string) (acc : N) : option N :=
  match s with
  | EmptyString => Some acc
  | String c s' =>
      if isDigit c
      then digitsValue s' (10 * acc + (N_of_ascii c - 48))%N
      else None
  end.

(** A property name is an array index when it is the canonical decimal
    form of an integer below 2^32 - 1. *)
Definition arrayIndex (k : string) : option N :=
  match k with
  | EmptyString => None
  | String c rest =>
      if Ascii.eqb c "0" && negb (String.eqb rest "") then None
      else match digitsValue k 0 with
           | Some n => if (n <? 4294967295)%N then Some n else None
           | None => None
           end
  end.

Definition isArrayIndex (k : string) : bool :=
  match arrayIndex k with
  | Some _ => true
  | None => false
  end.

Definition indexOf (k : string) : N :=
  match arrayIndex k with
  | Some n => n
  | None => 0%N
  end.

(** The order every enumeration of property names uses: the array
    indices in ascending numeric order, then the other names in creation
    order. [name] gives the name of an element. *)
Fixpoint insertIndex {A} (name : A -> string) (e : A) (l : list A) : list A :=
  match l with
  | [] => [e]
  | e' :: l' =>
      if (indexOf (name e) <=? indexOf (name e'))%N then e :: l
      else e' :: insertIndex name e l'
  end.

Definition enumerate {A} (name : A -> string) (l : list A) : list A :=
  fold_right (insertIndex name) [] (filter (fun e => isArrayIndex (name e)) l)
  ++ filter (fun e => negb (isArrayIndex (name e))) l.

Definition ownProperties {V} (o : obj V) : list (string * V) :=
  enumerate fst o.

Definition Object_entries {V} (o : obj V) : list (string * V) :=
  ownProperties o.

Definition Object_keys {V} (o : obj V) : list string :=
  map fst (ownProperties o).

(** *** Strings *)

Definition isUpper (c : ascii) : bool :=
  ((65 <=? nat_of_ascii c) && (nat_of_ascii c <=? 90))%nat.

Definition isLower (c : ascii) : bool :=
  ((97 <=? nat_of_ascii c) && (nat_of_ascii c <=? 122))%nat.

Definition lowerChar (c : ascii) : ascii :=
  if isUpper c then ascii_of_nat (nat_of_ascii c + 32) else c.

(** [s.toLowerCase()], on ASCII text. *)
Fixpoint toLowerCase (s : string) : string :=
  match s with
  | EmptyString => EmptyString
  | String c s' => String (lowerChar c) (toLowerCase s')
  end.

(** [s.replace(/[cls]/g, rep)]: every character of the class is replaced. *)
Fixpoint replace_each (cls : ascii -> bool) (rep : string) (s : string)
  : string :=
  match s with
  | EmptyString => EmptyString
  | String c s' =>
      if cls c then (rep ++ replace_each cls rep s')%string
      else String c (replace_each cls rep s')
  end.

(** [s.replace(/[cls]+/g, rep)]: every maximal run of characters of the
    class is replaced; [inRun] tells that the previous character was in a
    run already replaced. *)
Fixpoint replace_runs_from (cls : ascii -> bool) (rep : string)
  (inRun : bool) (s : string) : string :=
  match s with
  | EmptyString => EmptyString
  | String c s' =>
      if cls c
      then (if inRun then replace_runs_from cls rep true s'
            else (rep ++ replace_runs_from cls rep true s')%string)
      else String c (replace_runs_from cls rep false s')
  end.

Definition replace_runs (cls : ascii -> bool) (rep : string) (s : string)
  : string :=
  replace_runs_from cls rep false s.

(** [s.split(/[gap]+/)]: the pieces between the maximal runs of [gap]
    characters, empty pieces at either end included. [cur] is the piece
    being read. *)
Fixpoint split_from (gap : ascii -> bool) (inGap : bool) (cur : string)
  (s : string) : list string :=
  match s with
  | EmptyString => [cur]
  | String c s' =>
      if gap c
      then (if inGap then split_from gap true cur s'
            else cur :: split_from gap true EmptyString s')
      else split_from gap false (cur ++ String c EmptyString)%string s'
  end.

Definition split_runs (gap : ascii -> bool) (s : string) : list string :=
  split_from gap false EmptyString s.

(** *** Numbers and strings *)

(** The text a template literal gives an integer-valued number. *)
Definition Number_toString (x : int) : string :=
  match x with
  | Num z =>
      match z with
      | Zneg p => ("-" ++ NilZero.string_of_uint (N.to_uint (Npos p)))%string
      | _ => NilZero.string_of_uint (N.to_uint (Z.to_N z))
      end
  | NaN => "NaN"
  end.

Definition isWhiteSpace (c : ascii) : bool :=
  let n := nat_of_ascii c in
  ((n =? 32) || ((9 <=? n) && (n <=? 13)))%nat.

Fixpoint skipWhiteSpace (s : string) : string :=
  match s with
  | String c s' => if isWhiteSpace c then skipWhiteSpace s' else s
  | EmptyString => s
  end.

(** The value of the longest prefix of decimal digits, [None] when the
    text does not start with a digit. *)
Fixpoint leadingDigits (s : string) (acc : option N) : option N :=
  match s with
  | String c s' =>
      if isDigit c
      then leadingDigits s'
             (Some (10 * match acc with Some a => a | None => 0 end
                    + (N_of_ascii c - 48))%N)
      else acc
  | EmptyString => acc
  end.

(** [parseInt(s)] on a text without the prefix [0x]: white space, a
    sign, then decimal digits; what follows the digits is ignored. *)
Definition parseInt (s : string) : int :=
  match skipWhiteSpace s with
  | String "-" s' =>
      match leadingDigits s' None with
      | Some n => Num (- Z.of_N n)%Z
      | None => NaN
      end
  | String "+" s' =>
      match leadingDigits s' None with
      | Some n => Num (Z.of_N n)
      | None => NaN
      end
  | s' =>
      match leadingDigits s' None with
      | Some n => Num (Z.of_N n)
      | None => NaN
      end
  end.

End JS.

Export JS.

(** ** The [natural] package *)

Module Natural.

(** The characters a [WordTokenizer] keeps in a word: its pattern
    [/[^A-Za-zА-Яа-я0-9_]+/] matches the gaps between words.  The text
    [cleanAndTokenize] hands over holds no character outside
    [a-z0-9 #+-_.], so the Cyrillic ranges of the pattern never apply. *)
Definition isWordChar (c : ascii) : bool :=
  isUpper c || isLower c || isDigit c || Ascii.eqb c "_".

Definition isGap (c : ascii) : bool := negb (isWordChar c).

(** [without(results, '', ' ')] *)
Definition discardEmpty (results : list string) : list string :=
  filter (fun t => negb (String.eqb t "" || String.eqb t " ")) results.

(** [new natural.WordTokenizer().tokenize(s)]: split at the gaps, then
    discard the empty pieces. *)
Definition WordTokenizer_tokenize (s : string) : list string :=
  discardEmpty (split_runs isGap s).

End Natural.

(** ** The scoring engine *)

(** A stored job, as [fetchJobs] builds it; a field that is missing is
    [None]. *)
Record job : Type := {
  id : string;
  title : string;
  company : string;
  description : option string;
  url : option string;
  location : string;
  keywords : option (list string)
}.

(** The result of [finalMatchScore]. *)
Record scores : Type := {
  final : int;
  kwScore : int;
  semScore : int
}.

(** An element of the [results] array of the [/match] route. *)
Record jobMatch : Type := {
  match_id : string;
  match_title : string;
  match_company : string;
  matchScore : string;
  keywordScore : string;
  semanticScore : string;
  match_url : option string;
  match_keywords : option (list string)
}.

(** The answer of the [/match] route. *)
Inductive response : Type :=
| status400 (error : string)
| results (matches : list jobMatch).

(** [/[]+/]: a character class with no member. *)
Definition emptyClass (c : ascii) : bool := false.

(** [/[^a-zA-Z0-9 #+\-_.]/]: every character but the ones listed. *)
Definition notListed (c : ascii) : bool :=
  negb (isLower c || isUpper c || isDigit c
        || Ascii.eqb c " " || Ascii.eqb c "#" || Ascii.eqb c "+"
        || Ascii.eqb c "-" || Ascii.eqb c "_" || Ascii.eqb c ".").

Definition ART_KEYWORDS : list string :=
  Set_of
    ["concept"; "artist"; "character"; "2d"; "illustration"; "digital";
     "painting"; "anatomy"; "stylized"; "environment"; "sketch";
     "photoshop"; "procreate"; "color"; "lighting"; "render"; "visual";
     "design"; "composition"; "story"; "ideation"].

Section Engine.

(** [tokenizer.tokenize] and [stopWords] come from the [natural] package:
    [new natural.WordTokenizer()] and [natural.stopwords || []]. *)
Variable tokenizer : string -> list string.
Variable stopWords : list string.

Definition cleanAndTokenize (text : option string) : list string :=
  match text with
  | None => []
  | Some EmptyString => []
  | Some text =>
      let lowered :=
        toLowerCase
          (replace_each notListed " " (replace_runs emptyClass " " text)) in
      let tokens := tokenizer lowered in
      filter (fun t => (2 <? String.length t)%nat && negb (includes stopWords t))
        tokens
  end.

(** [limit] is [None] when the argument is left out. *)
Definition extractKeywords (text : option string) (limit : option nat)
  : list string :=
  let limit := match limit with Some n => n | None => 20 end in
  let tokens := cleanAndTokenize text in
  let freq :=
    fold_left
      (fun (freq : obj cell) t =>
         let weight := if Set_has ART_KEYWORDS t then 4 else 1 in
         write freq t (orZeroPlus (read freq t) weight))
      tokens [] in
  let sorted :=
    Array_sort (fun a b => minus (snd b) (snd a)) (Object_entries freq) in
  map fst (slice0 limit sorted).

Definition buildTermFreq (docTokens : list string) : obj cell :=
  fold_left (fun (tf : obj cell) t => write tf t (orZeroPlus (read tf t) 1))
    docTokens [].

(** In [Math.log((N + 1) / (df[term] + 1)) + 1] a property of [df] that
    is a text gives [NaN]. *)
Definition computeIdf (allDocsTokens : list (list string)) : obj num :=
  let N := List.length allDocsTokens in
  let df :=
    fold_left
      (fun (df : obj cell) tokens =>
         let seen := Set_of tokens in
         fold_left
           (fun (df : obj cell) t => write df t (orZeroPlus (read df t) 1))
           seen df)
      allDocsTokens [] in
  fold_left
    (fun (idf : obj num) term =>
       write idf term
         match read df term with
         | Own (Count n) => Num (ln ((INR N + 1) / (INR n + 1)) + 1)%R
         | _ => NaN
         end)
    (Object_keys df) [].

Definition tfidfVector (docTokens : list string) (idf : obj num)
  (vocab : list string) : list num :=
  let tf := buildTermFreq docTokens in
  map (fun term =>
         let termFreq := countOrZero (read tf term) in
         times termFreq (numberOrZero (read idf term)))
    vocab.

Definition dotProduct (a b : list num) : num :=
  for_loop (List.length a) (fun s i => nadd s (nmul (index a i) (index b i)))
    (Num 0%R).

Definition magnitude (a : list num) : num :=
  Math_sqrt
    (for_loop (List.length a) (fun s i => nadd s (nmul (index a i) (index a i)))
       (Num 0%R)).

Definition cosineSimilarity (vecA vecB : list num) : num :=
  let denom := nmul (magnitude vecA) (magnitude vecB) in
  if strictEqZero denom then Num 0%R
  else ndiv (dotProduct vecA vecB) denom.

Definition semanticSimilarity (resumeText jobDescription : option string)
  : int :=
  let resumeTokens := cleanAndTokenize resumeText in
  let jobTokens := cleanAndTokenize jobDescription in
  if (List.length resumeTokens =? 0)%nat || (List.length jobTokens =? 0)%nat
  then Num 0%Z
  else
    let allDocs := [resumeTokens; jobTokens] in
    let idf := computeIdf allDocs in
    let vocab := Set_of (resumeTokens ++ jobTokens) in
    let vecA := tfidfVector resumeTokens idf vocab in
    let vecB := tfidfVector jobTokens idf vocab in
    let sim := cosineSimilarity vecA vecB in
    Math_round (nmul sim (Num 100%R)).

Definition keywordMatchPercentage (resumeText : option string)
  (jobKeywords : option (list string)) : int :=
  match jobKeywords with
  | None => Num 0%Z
  | Some [] => Num 0%Z
  | Some jobKeywords =>
      let resumeTokens := Set_of (cleanAndTokenize resumeText) in
      let matches :=
        fold_left
          (fun matches k => if Set_has resumeTokens k then S matches else matches)
          jobKeywords 0%nat in
      Math_round (Num (INR matches / INR (List.length jobKeywords) * 100)%R)
  end.

Definition finalMatchScore (resumeText : option string) (job : job) : scores :=
  let kwScore :=
    keywordMatchPercentage resumeText
      (Some (match keywords job with Some k => k | None => [] end)) in
  let semScore :=
    semanticSimilarity resumeText
      (Some (match description job with
             | Some EmptyString | None => EmptyString
             | Some d => d
             end)) in
  let weightKw := (4 / 10)%R in
  let weightSem := (6 / 10)%R in
  let final :=
    Math_round
      (nadd (nmul (toNum kwScore) (Num weightKw))
            (nmul (toNum semScore) (Num weightSem))) in
  {| final := final; kwScore := kwScore; semScore := semScore |}.

(** The element the [/match] route builds for one job. *)
Definition toMatch (resumeText : string) (job : job) : jobMatch :=
  let scores := finalMatchScore (Some resumeText) job in
  {| match_id := id job;
     match_title := title job;
     match_company := company job;
     matchScore := (Number_toString (final scores) ++ "%")%string;
     keywordScore := (Number_toString (kwScore scores) ++ "%")%string;
     semanticScore := (Number_toString (semScore scores) ++ "%")%string;
     match_url := url job;
     match_keywords := keywords job |}.

(** [storedJobs.map(...).sort(...)]: the ranking of the stored jobs. *)
Definition rankJobs (resumeText : string) (storedJobs : list job)
  : list jobMatch :=
  Array_sort
    (fun a b => isub (parseInt (matchScore b)) (parseInt (matchScore a)))
    (map (toMatch resumeText) storedJobs).

(** [app.post('/match', ...)] on the body's [resumeText] and the jobs in
    store. *)
Definition postMatch (body_resumeText : option string) (storedJobs : list job)
  : response :=
  match body_resumeText with
  | None | Some EmptyString => status400 "resumeText is required"
  | Some resumeText => results (rankJobs resumeText storedJobs)
  end.

End Engine.

(** ** Reference definitions for the statements *)

(** The sum of the products of the entries two vectors have in common. *)
Fixpoint sumProducts (a b : list R) : R :=
  match a, b with
  | x :: a', y :: b' => (x * y + sumProducts a' b')%R
  | _, _ => 0%R
  end.

Definition sumSquares (a : list R) : R := sumProducts a a.

(** The Euclidean norm. *)
Definition norm (a : list R) : R := sqrt (sumSquares a).

(** The outcome of a call: a value, or an exception. *)
Inductive completion (A : Type) : Type :=
| Returns (a : A)
| Throws (error : string).
Arguments Returns {A} a.
Arguments Throws {A} error.

(** A vector of real numbers as an array. *)
Definition vec (v : list R) : list num := map Num v.

(** A call of [cosineSimilarity] on two arrays of numbers: the function
    and the two it calls have no [throw], no assertion and no test of the
    lengths, and reading an array past its end does not throw. *)
Definition call_cosineSimilarity (vecA vecB : list R) : completion num :=
  Returns (cosineSimilarity (vec vecA) (vec vecB)).

(** A token sequence without the name of a member of [Object.prototype]. *)
Definition noPrototypeMember (tokens : list string) : Prop :=
  Forall (fun t => isPrototypeMember t = false) tokens.


(** The number of occurrences of a token. *)
Definition occurrences (t : string) (tokens : list string) : nat :=
  count_occ string_dec tokens t.

(** The distinct tokens in the order of their first occurrence. *)
Fixpoint firstSeen (tokens : list string) : list string :=
  match tokens with
  | [] => []
  | t :: rest => t :: filter (fun u => negb (String.eqb u t)) (firstSeen rest)
  end.

(** [p/q] rounded to the nearest integer, a tie going up. *)
Definition roundDiv (p q : Z) : Z := ((2 * p + q) / (2 * q))%Z.

(** The number of keywords that are among the given tokens. *)
Definition matchedCount (tokens jobKeywords : list string) : nat :=
  List.length (filter (fun k => includes tokens k) jobKeywords).

(** The number of documents that contain a term. *)
Definition docFreq (term : string) (docs : list (list string)) : nat :=
  List.length (filter (fun d => includes d term) docs).

(** The smoothed inverse document frequency for [N] documents. *)
Definition idfOf (N df : nat) : R :=
  (ln ((INR N + 1) / (INR df + 1)) + 1)%R.

(** The property that a name without a namesake in the prototype has
    after [occ] additions of [w], [g] being the property before. *)
Definition tallied (g : option cell) (w occ : nat) : option cell :=
  match occ with
  | 0 => g
  | S _ =>
      match g with
      | None => Some (Count (w * occ))
      | Some (Count n) => Some (Count (n + w * occ))
      | Some Text => Some Text
      end
  end.

(** The document-frequency loop of [computeIdf], started from the table
    [df]. *)
Definition dfLoop (docs : list (list string)) (df : obj cell) : obj cell :=
  fold_left
    (fun (df : obj cell) tokens =>
       fold_left
         (fun (df : obj cell) t => write df t (orZeroPlus (read df t) 1))
         (Set_of tokens) df)
    docs df.

(** The weight of a term in a document of a corpus: its number of
    occurrences times its smoothed inverse document frequency. *)
Definition tfidf (docs : list (list string)) (doc : list string)
  (term : string) : R :=
  (INR (occurrences term doc)
   * idfOf (List.length docs) (docFreq term docs))%R.

(** The sum of a list of reals. *)
Definition sumR (l : list R) : R := fold_right Rplus 0%R l.

(** The entry of a term in the vector of a document: [NaN] for the name
    of a member of [Object.prototype], the weight of the term otherwise. *)
Definition entry (docs : list (list string)) (doc : list string)
  (term : string) : num :=
  if isPrototypeMember term then NaN else Num (tfidf docs doc term).

(** The similarity [semanticSimilarity] computes for two non-empty token
    sequences, before it is turned into a percentage. *)
Definition pairSimilarity (resumeTokens jobTokens : list string) : num :=
  let allDocs := [resumeTokens; jobTokens] in
  let vocab := firstSeen (resumeTokens ++ jobTokens) in
  cosineSimilarity
    (map (entry allDocs resumeTokens) vocab)
    (map (entry allDocs jobTokens) vocab).

(** A list of property names in enumeration order. *)
Definition enumerationOrder (names : list string) : list string :=
  enumerate (fun k => k) names.

(** The domain boost of [extractKeywords]. *)
Definition boost (t : string) : nat :=
  if Set_has ART_KEYWORDS t then 4 else 1.

(** The accumulated weight of a token: its boost for each occurrence. *)
Definition tokenWeight (tokens : list string) (t : string) : nat :=
  boost t * occurrences t tokens.

(** The comparator of a sort in descending order of an integer key. *)
Definition descending {A} (key : A -> Z) (a b : A) : int :=
  Num (key b - key a)%Z.

(** [a] may stand before [b] in descending order of the key. *)
Definition above {A} (key : A -> Z) (a b : A) : Prop := (key b <= key a)%Z.

(** The score a [/match] result shows, as the route's comparator reads it. *)
Definition shownScore (m : jobMatch) : int := parseInt (matchScore m).

Definition scoreOf (m : jobMatch) : Z :=
  match shownScore m with
  | Num z => z
  | NaN => 0%Z
  end.

(** The value of a sequence of decimal digits read after the value [acc]. *)
Fixpoint horner (d : Decimal.uint) (acc : N) : N :=
  match d with
  | Decimal.Nil => acc
  | Decimal.D0 l => horner l (10 * acc + 0)%N
  | Decimal.D1 l => horner l (10 * acc + 1)%N
  | Decimal.D2 l => horner l (10 * acc + 2)%N
  | Decimal.D3 l => horner l (10 * acc + 3)%N
  | Decimal.D4 l => horner l (10 * acc + 4)%N
  | Decimal.D5 l => horner l (10 * acc + 5)%N
  | Decimal.D6 l => horner l (10 * acc + 6)%N
  | Decimal.D7 l => horner l (10 * acc + 7)%N
  | Decimal.D8 l => horner l (10 * acc + 8)%N
  | Decimal.D9 l => horner l (10 * acc + 9)%N
  end.

(** ** The tokenizer and the keyword ranking as the specification words them *)

(** Removing the characters of a class. *)
Fixpoint deleteChars (cls : ascii -> bool) (s : string) : string :=
  match s with
  | EmptyString => EmptyString
  | String c s' =>
      if cls c then deleteChars cls s' else String c (deleteChars cls s')
  end.

(** The tokens [cleanAndTokenize] keeps: longer than two characters and
    not a stop word. *)
Definition kept (stopWords : list string) (tokens : list string) : list string :=
  filter (fun t => (2 <? String.length t)%nat && negb (includes stopWords t))
    tokens.

(** The tokenizer in the words of the specification: runs of white space
    become one space, the characters that are not listed are stripped, the
    text is lowercased and split at white space, short tokens and stop
    words are discarded. *)
Definition tokenize_spec (stopWords : list string) (text : option string)
  : list string :=
  match text with
  | None => []
  | Some text =>
      let collapsed := replace_runs isWhiteSpace " " text in
      let stripped := deleteChars notListed collapsed in
      let lowered := toLowerCase stripped in
      let raw :=
        filter (fun t => negb (String.eqb t ""))
          (split_runs isWhiteSpace lowered) in
      kept stopWords raw
  end.

(** The keyword ranking in the words of the specification: the distinct
    tokens in descending order of accumulated weight, a tie broken by the
    order of first occurrence; the first [limit] of them. *)
Definition extractKeywords_spec (tokenizer : string -> list string)
  (stopWords : list string) (text : option string) (limit : nat)
  : list string :=
  let tokens := cleanAndTokenize tokenizer stopWords text in
  firstn limit
    (Array_sort (descending (fun t => Z.of_nat (tokenWeight tokens t)))
       (firstSeen tokens)).

(** A string made of word characters only. *)
Fixpoint allWordChars (s : string) : bool :=
  match s with
  | EmptyString => true
  | String c s' => Natural.isWordChar c && allWordChars s'
  end.

(** What the two replacements and the lowercasing make of a character. *)
Definition cleanChar (c : ascii) : ascii :=
  lowerChar (if notListed c then " "%char else c).

(** ** Sample jobs *)

Definition jobWith (id : string) (keywords : option (list string))
  (description : option string) : job :=
  {| id := id;
     title := "2D Character Artist";
     company := "Studio";
     description := description;
     url := None;
     location := "Remote";
     keywords := keywords |}.

(** The comparator of the ranking. *)
Definition byMatchScore (a b : jobMatch) : int :=
  isub (parseInt (matchScore b)) (parseInt (matchScore a)).

(** ** Double precision

    The numeric functions of [app.js] over the numbers that JavaScript
    has: the binary64 format of IEEE 754, every operation rounded to the
    nearest number, ties to even. The format and its operations are those
    of [SpecFloat]: [S754_finite s m e] is the number [(-1)^s * m * 2^e]. *)

Module Binary64.

Definition float : Type := spec_float.

Definition prec : Z := 53.
Definition emax : Z := 1024.

Definition add : float -> float -> float := SFadd prec emax.
Definition mul : float -> float -> float := SFmul prec emax.
Definition div : float -> float -> float := SFdiv prec emax.

(** The number an integer literal or a count denotes: the integer itself
    below 2^53, the nearest number otherwise. *)
Definition ofZ (z : Z) : float := binary_normalize prec emax z 0 false.
Definition ofNat (n : nat) : float := ofZ (Z.of_nat n).

(** The literal [0]. *)
Definition zero : float := S754_zero false.

(** [x === 0]: true of [0] and [-0], false of [NaN]. *)
Definition strictEqZero (x : float) : bool := SFeqb x zero.

(** [x || 0] on a number: [NaN], [0] and [-0] are falsy. *)
Definition orZero (x : float) : float :=
  match x with
  | S754_nan | S754_zero _ => zero
  | _ => x
  end.

(** [Math.sqrt], correctly rounded. *)
Definition Math_sqrt : float -> float := SFsqrt prec emax.

(** [Math.round(x)]: the integer nearest to [x], the larger one of two
    that are equally near; [-0] when that integer is 0 and [x] is
    negative. For [x = M * 2^e] with [e < 0] the integer is
    [floor((2M + 2^-e) / 2^(1-e))]. *)
Definition Math_round (x : float) : float :=
  match x with
  | S754_finite s m e =>
      if (0 <=? e)%Z then x
      else
        let M := if s then Z.neg m else Z.pos m in
        let r := Z.shiftr (2 * M + 2 ^ (- e)) (1 - e) in
        if (r =? 0)%Z then S754_zero s else ofZ r
  | _ => x
  end.

(** [a[i]] used as an operand: [NaN] past the end. *)
Definition index (a : list float) (i : nat) : float :=
  match nth_error a i with
  | Some x => x
  | None => S754_nan
  end.

Definition dotProduct (a b : list float) : float :=
  for_loop (List.length a) (fun s i => add s (mul (index a i) (index b i)))
    zero.

Definition magnitude (a : list float) : float :=
  Math_sqrt
    (for_loop (List.length a) (fun s i => add s (mul (index a i) (index a i)))
       zero).

Definition cosineSimilarity (vecA vecB : list float) : float :=
  let denom := mul (magnitude vecA) (magnitude vecB) in
  if strictEqZero denom then zero
  else div (dotProduct vecA vecB) denom.

(** [o[k] || 0] read from a table of counts, as an operand of [*]: a
    text and a function count as [NaN]. *)
Definition countOrZero (x : lookup cell) : float :=
  match x with
  | Own (Count n) => ofNat n
  | Own Text | Inherited => S754_nan
  | Undefined => zero
  end.

(** [o[k] || 0] read from a table of numbers, as an operand of [*]. *)
Definition numberOrZero (x : lookup float) : float :=
  match x with
  | Own v => orZero v
  | Inherited => S754_nan
  | Undefined => zero
  end.

Section Engine.

Variable tokenizer : string -> list string.
Variable stopWords : list string.

(** [Math.log]: the language leaves its precision to the implementation. *)
Variable Math_log : float -> float.

Definition computeIdf (allDocsTokens : list (list string)) : obj float :=
  let N := List.length allDocsTokens in
  let df :=
    fold_left
      (fun (df : obj cell) tokens =>
         let seen := Set_of tokens in
         fold_left
           (fun (df : obj cell) t => write df t (orZeroPlus (read df t) 1))
           seen df)
      allDocsTokens [] in
  fold_left
    (fun (idf : obj float) term =>
       write idf term
         match read df term with
         | Own (Count n) =>
             add (Math_log (div (add (ofNat N) (ofZ 1)) (add (ofNat n) (ofZ 1))))
               (ofZ 1)
         | _ => S754_nan
         end)
    (Object_keys df) [].

Definition tfidfVector (docTokens : list string) (idf : obj float)
  (vocab : list string) : list float :=
  let tf := buildTermFreq docTokens in
  map (fun term =>
         let termFreq := countOrZero (read tf term) in
         mul termFreq (numberOrZero (read idf term)))
    vocab.

Definition semanticSimilarity (resumeText jobDescription : option string)
  : float :=
  let resumeTokens := cleanAndTokenize tokenizer stopWords resumeText in
  let jobTokens := cleanAndTokenize tokenizer stopWords jobDescription in
  if (List.length resumeTokens =? 0)%nat || (List.length jobTokens =? 0)%nat
  then zero
  else
    let allDocs := [resumeTokens; jobTokens] in
    let idf := computeIdf allDocs in
    let vocab := Set_of (resumeTokens ++ jobTokens) in
    let vecA := tfidfVector resumeTokens idf vocab in
    let vecB := tfidfVector jobTokens idf vocab in
    let sim := cosineSimilarity vecA vecB in
    Math_round (mul sim (ofZ 100)).

Definition keywordMatchPercentage (resumeText : option string)
  (jobKeywords : option (list string)) : float :=
  match jobKeywords with
  | None => zero
  | Some [] => zero
  | Some jobKeywords =>
      let resumeTokens :=
        Set_of (cleanAndTokenize tokenizer stopWords resumeText) in
      let matches :=
        fold_left
          (fun matches k => if Set_has resumeTokens k then S matches else matches)
          jobKeywords 0%nat in
      Math_round
        (mul (div (ofNat matches) (ofNat (List.length jobKeywords))) (ofZ 100))
  end.

End Engine.



(** The entry of a term in the vector of a document of a corpus. *)
Definition entry (Math_log : float -> float) (docs : list (list string))
  (doc : list string) (term : string) : float :=
  if isPrototypeMember term then S754_nan
  else
    mul (if (0 <? occurrences term doc)%nat then ofNat (occurrences term doc)
         else zero)
        (if (0 <? docFreq term docs)%nat
         then orZero
                (add (Math_log
                        (div (add (ofNat (List.length docs)) (ofZ 1))
                           (add (ofNat (docFreq term docs)) (ofZ 1))))
                   (ofZ 1))
         else zero).

(** A text made of words, each repeated a number of times. *)
Fixpoint wordsOf (counts : list (string * nat)) : string :=
  match counts with
  | [] => EmptyString
  | (word, n) :: rest =>
      (String.concat "" (repeat (word ++ " ")%string n) ++ wordsOf rest)%string
  end.



End Binary64.

(** ** Reference definitions for the statements about double precision *)

(** The same number, written the same way. *)
Definition sameFloat (x y : Binary64.float) : bool :=
  match x, y with
  | S754_zero s, S754_zero s' => Bool.eqb s s'
  | S754_infinity s, S754_infinity s' => Bool.eqb s s'
  | S754_nan, S754_nan => true
  | S754_finite s m e, S754_finite s' m' e' =>
      Bool.eqb s s' && (m =? m')%positive && (e =? e')%Z
  | _, _ => false
  end.

(** [0] or [-0]. *)
Definition isZero (x : Binary64.float) : bool :=
  match x with
  | S754_zero _ => true
  | _ => false
  end.

(** Neither [NaN] nor an infinity. *)
Definition isFinite (x : Binary64.float) : bool :=
  match x with
  | S754_zero _ | S754_finite _ _ _ => true
  | _ => false
  end.

(** The percentage of [m] out of [n] as the code computes it. *)
Definition percentage64 (m n : nat) : Binary64.float :=
  Binary64.Math_round
    (Binary64.mul (Binary64.div (Binary64.ofNat m) (Binary64.ofNat n))
       (Binary64.ofZ 100)).

(** ** Vectors: [dotProduct], [magnitude], [cosineSimilarity] *)

Section Vectors.

Let dotStep (a b : list num) (s : num) (i : nat) : num :=
  nadd s (nmul (index a i) (index b i)).

Lemma dotStep_NaN (a b : list num) (l : list nat) :
  fold_left (dotStep a b) l NaN = NaN.
Proof. induction l as [|i l IH]; simpl; auto. Qed.

Lemma dotStep_cons (x : num) (a b : list num) (l : list nat) (s : num) :
  fold_left (dotStep (x :: a) b) (map S l) s
  = fold_left (dotStep a (tl b)) l s.
Proof.
  revert s; induction l as [|i l IH]; intros s; simpl; auto.
  rewrite IH. f_equal. unfold dotStep, index. simpl.
  destruct b; simpl; auto. destruct i; reflexivity.
Qed.

(** One turn of the loop: the first entries, then the loop on the rest. *)
Lemma dot_loop_cons (x : num) (a b : list num) (s : num) :
  for_loop (List.length (x :: a)) (dotStep (x :: a) b) s
  = for_loop (List.length a) (dotStep a (tl b))
      (nadd s (nmul x (index b 0))).
Proof.
  unfold for_loop. simpl List.length. rewrite <- cons_seq, <- seq_shift.
  simpl fold_left. rewrite dotStep_cons. reflexivity.
Qed.

Lemma dot_loop_le (a b : list R) (s : R) :
  (List.length a <= List.length b)%nat ->
  for_loop (List.length (vec a)) (dotStep (vec a) (vec b)) (Num s)
  = Num (s + sumProducts a b)%R.
Proof.
  revert b s; induction a as [|x a IH]; intros b s Hlen.
  - unfold for_loop; simpl. apply f_equal. ring.
  - destruct b as [|y b]; simpl in Hlen; [lia|].
    unfold vec. simpl map. rewrite dot_loop_cons. simpl tl.
    unfold index; simpl nth_error. simpl nadd.
    fold (vec a) (vec b). rewrite IH by lia. apply f_equal. simpl. ring.
Qed.

Lemma dot_loop_gt (a b : list num) (s : num) :
  (List.length b < List.length a)%nat ->
  for_loop (List.length a) (dotStep a b) s = NaN.
Proof.
  revert b s; induction a as [|x a IH]; intros b s Hlen; simpl in Hlen.
  - lia.
  - rewrite dot_loop_cons. destruct b as [|y b].
    + unfold index; simpl. destruct s, x; simpl; apply dotStep_NaN.
    + apply IH. simpl in Hlen. simpl. lia.
Qed.

(** An entry [NaN] makes the sum of the squares [NaN]. *)
Lemma squares_loop_NaN (a : list num) (s : num) :
  In NaN a -> for_loop (List.length a) (dotStep a a) s = NaN.
Proof.
  assert (G : forall a b s,
             (exists i, i < List.length a /\ index a i = NaN)%nat ->
             for_loop (List.length a) (dotStep a b) s = NaN).
  { clear. induction a as [|x a IH]; intros b s (i & Hi & Hx).
    - simpl in Hi. lia.
    - rewrite dot_loop_cons. destruct i as [|i].
      + unfold index in Hx. simpl in Hx. subst x.
        destruct s; simpl; apply dotStep_NaN.
      + apply IH. exists i. split; [simpl in Hi; lia | exact Hx]. }
  intros Hin. apply G. apply In_nth_error in Hin as (i & Hi).
  exists i. split.
  - destruct (Nat.lt_ge_cases i (List.length a)) as [L|L]; [exact L|].
    apply nth_error_None in L. unfold num in *. congruence.
  - unfold index, num in *. now rewrite Hi.
Qed.

Lemma dotProduct_le (a b : list R) :
  (List.length a <= List.length b)%nat ->
  dotProduct (vec a) (vec b) = Num (sumProducts a b).
Proof.
  intros H. unfold dotProduct. fold (dotStep (vec a) (vec b)).
  rewrite dot_loop_le by assumption. apply f_equal. ring.
Qed.

Lemma dotProduct_gt (a b : list R) :
  (List.length b < List.length a)%nat -> dotProduct (vec a) (vec b) = NaN.
Proof.
  intros H. unfold dotProduct. fold (dotStep (vec a) (vec b)).
  apply dot_loop_gt. unfold vec. now rewrite !length_map.
Qed.

Lemma magnitude_norm (a : list R) : magnitude (vec a) = Num (norm a).
Proof.
  unfold magnitude. fold (dotStep (vec a) (vec a)).
  rewrite dot_loop_le by lia. simpl. unfold norm, sumSquares.
  do 2 apply f_equal. ring.
Qed.

Lemma magnitude_NaN (a : list num) : In NaN a -> magnitude a = NaN.
Proof.
  intros H. unfold magnitude. fold (dotStep a a).
  now rewrite squares_loop_NaN.
Qed.

End Vectors.

(** A vector with an entry [NaN] has the similarity [NaN] with any vector. *)
Lemma cosineSimilarity_NaN (a b : list num) :
  In NaN a -> cosineSimilarity a b = NaN.
Proof.
  intros H. unfold cosineSimilarity. rewrite (magnitude_NaN a H). simpl.
  now destruct (dotProduct a b).
Qed.

Lemma sumSquares_nonneg (a : list R) : (0 <= sumSquares a)%R.
Proof.
  unfold sumSquares. induction a as [|x a IH]; simpl; [lra|].
  pose proof (Rle_0_sqr x) as H. unfold Rsqr in H. lra.
Qed.

Lemma norm_nonneg (a : list R) : (0 <= norm a)%R.
Proof. apply sqrt_pos. Qed.

Lemma norm_sqr (a : list R) : (norm a * norm a = sumSquares a)%R.
Proof. apply sqrt_sqrt, sumSquares_nonneg. Qed.

Lemma sumSquares_zero (a : list R) :
  sumSquares a = 0%R -> Forall (fun x => x = 0%R) a.
Proof.
  unfold sumSquares. induction a as [|x a IH]; simpl; intros H; constructor.
  - pose proof (sumSquares_nonneg a) as Ha. unfold sumSquares in Ha.
    pose proof (Rle_0_sqr x) as Hx. unfold Rsqr in Hx.
    assert (Hxx : (x * x = 0)%R) by lra.
    destruct (Rmult_integral _ _ Hxx); assumption.
  - apply IH.
    pose proof (sumSquares_nonneg a) as Ha. unfold sumSquares in Ha.
    pose proof (Rle_0_sqr x) as Hx. unfold Rsqr in Hx. lra.
Qed.

Lemma norm_zero (a : list R) : norm a = 0%R -> Forall (fun x => x = 0%R) a.
Proof.
  intros H. apply sumSquares_zero. rewrite <- norm_sqr, H. ring.
Qed.

(** What [cosineSimilarity] returns on two vectors of real numbers,
    whatever the two lengths. *)
Lemma cosineSimilarity_cases (a b : list R) :
  cosineSimilarity (vec a) (vec b)
  = if Req_dec_T (norm a * norm b) 0 then Num 0%R
    else if (List.length a <=? List.length b)%nat
         then Num (sumProducts a b / (norm a * norm b))%R
         else NaN.
Proof.
  unfold cosineSimilarity. rewrite !magnitude_norm. simpl.
  destruct (Req_dec_T (norm a * norm b) 0) as [E|E]; [reflexivity|].
  destruct (Nat.leb_spec (List.length a) (List.length b)) as [L|L].
  - rewrite dotProduct_le by assumption. reflexivity.
  - rewrite dotProduct_gt by assumption. reflexivity.
Qed.

(** A vector with a non-zero entry has a non-zero norm. *)
Lemma norm_pos (v : list R) :
  (exists x, In x v /\ x <> 0%R) -> (0 < norm v)%R.
Proof.
  intros (x & Hin & Hx).
  destruct (Rle_lt_or_eq_dec _ _ (norm_nonneg v)) as [H|H]; [assumption|].
  exfalso. apply Hx. symmetry in H. apply norm_zero in H.
  rewrite Forall_forall in H. now apply H.
Qed.

(** In exact arithmetic, [cosineSimilarity(v, v)] is 1 for every vector
    [v] of real numbers that is not the zero vector. *)
Theorem cosineSimilarity_self (v : list R) :
  (exists x, In x v /\ x <> 0%R) ->
  cosineSimilarity (vec v) (vec v) = Num 1%R.
Proof.
  intros Hv. pose proof (norm_pos v Hv) as Hpos.
  rewrite cosineSimilarity_cases.
  destruct (Req_dec_T (norm v * norm v) 0) as [E|E].
  - exfalso. destruct (Rmult_integral _ _ E); lra.
  - rewrite Nat.leb_refl. apply f_equal.
    rewrite norm_sqr in *. unfold sumSquares in *. now field.
Qed.

Lemma cosineSimilarity_self_witness :
  cosineSimilarity (vec [3; 4]%R) (vec [3; 4]%R) = Num 1%R.
Proof.
  apply cosineSimilarity_self. exists 3%R. split; [left; reflexivity | lra].
Defined.






(** ** Rounding *)

Lemma div_unit_interval (r b : R) :
  (0 <= r < b)%R -> (0 <= r / b < 1)%R.
Proof.
  intros [H0 H1]. assert (Hb : (0 < b)%R) by lra.
  pose proof (Rinv_0_lt_compat b Hb) as Hi. split.
  - unfold Rdiv. apply Rmult_le_pos; lra.
  - apply Rmult_lt_reg_r with b; [assumption|].
    unfold Rdiv. rewrite Rmult_assoc, Rinv_l by lra. lra.
Qed.

Lemma Zfloor_div (a b : Z) :
  (0 < b)%Z -> Zfloor (IZR a / IZR b) = (a / b)%Z.
Proof.
  intros Hb. apply Zfloor_eq.
  assert (HbR : (0 < IZR b)%R) by now apply IZR_lt.
  pose proof (Z.div_mod a b ltac:(lia)) as Hdm.
  pose proof (Z.mod_pos_bound a b Hb) as Hm.
  set (q := (a / b)%Z) in *. set (r := (a mod b)%Z) in *.
  assert (Ha : IZR a = (IZR b * IZR q + IZR r)%R)
    by now rewrite Hdm, plus_IZR, mult_IZR.
  assert (Hr0 : (0 <= IZR r)%R) by (apply IZR_le; lia).
  assert (Hr1 : (IZR r < IZR b)%R) by (apply IZR_lt; lia).
  replace (IZR a / IZR b)%R with (IZR q + IZR r / IZR b)%R
    by (rewrite Ha; field; lra).
  pose proof (div_unit_interval (IZR r) (IZR b) ltac:(lra)). lra.
Qed.

(** [Math.round] of a quotient of integers is [roundDiv]. *)
Lemma Math_round_quotient (p q : Z) :
  (0 < q)%Z -> Math_round (Num (IZR p / IZR q)%R) = Num (roundDiv p q).
Proof.
  intros Hq. unfold Math_round, roundDiv. apply f_equal.
  assert (HqR : (0 < IZR q)%R) by now apply IZR_lt.
  replace (IZR p / IZR q + / 2)%R with (IZR (2 * p + q) / IZR (2 * q))%R.
  - apply Zfloor_div. lia.
  - rewrite plus_IZR, !mult_IZR. field. lra.
Qed.

(** [Math.round] is monotone, so it keeps a number within integer bounds. *)
Lemma Math_round_bounds (x : R) (lo hi : Z) :
  (IZR lo <= x <= IZR hi)%R ->
  exists z, Math_round (Num x) = Num z /\ (lo <= z <= hi)%Z.
Proof.
  intros [Hlo Hhi]. exists (Zfloor (x + / 2)). split; [reflexivity|].
  pose proof (Zfloor_bound (x + / 2)) as [B1 B2]. split.
  - apply Zfloor_lub. lra.
  - assert (H : (IZR (Zfloor (x + / 2)) < IZR (hi + 1))%R)
      by (rewrite plus_IZR; lra).
    apply lt_IZR in H. lia.
Qed.

(** ** Sets and tables *)

Lemma Set_has_In (s : list string) (x : string) :
  Set_has s x = true <-> In x s.
Proof.
  unfold Set_has. rewrite existsb_exists. split.
  - intros (y & Hy & E). apply String.eqb_eq in E. now subst.
  - intros H. exists x. split; [assumption | apply String.eqb_refl].
Qed.

Lemma includes_In (a : list string) (x : string) :
  includes a x = true <-> In x a.
Proof. apply Set_has_In. Qed.

Lemma Set_has_false (s : list string) (x : string) :
  Set_has s x = false <-> ~ In x s.
Proof.
  rewrite <- Set_has_In. destruct (Set_has s x); split; congruence.
Qed.

Lemma filter_filter {A} (f g : A -> bool) (l : list A) :
  filter f (filter g l) = filter (fun x => g x && f x) l.
Proof.
  induction l as [|x l IH]; simpl; auto.
  destruct (g x); simpl; [destruct (f x)|]; simpl; now rewrite IH.
Qed.

Lemma firstSeen_In (t : string) (l : list string) :
  In t (firstSeen l) <-> In t l.
Proof.
  induction l as [|u l IH]; simpl; [tauto|].
  rewrite filter_In, IH. destruct (String.eqb_spec t u) as [E|E]; simpl.
  - subst. tauto.
  - split; [tauto|]. intros [H|H]; [congruence | tauto].
Qed.

Lemma firstSeen_NoDup (l : list string) : NoDup (firstSeen l).
Proof.
  induction l as [|u l IH]; simpl; constructor.
  - rewrite filter_In. intros [_ H]. now rewrite String.eqb_refl in H.
  - now apply NoDup_filter.
Qed.

(** Adding the tokens of [l], one by one, to the set [s]. *)
Lemma fold_Set_add (l s : list string) :
  fold_left Set_add l s
  = s ++ filter (fun u => negb (Set_has s u)) (firstSeen l).
Proof.
  revert s; induction l as [|t l IH]; intros s; simpl.
  - now rewrite app_nil_r.
  - rewrite IH. unfold Set_add.
    destruct (Set_has s t) eqn:Hs; simpl.
    + f_equal. rewrite filter_filter. apply filter_ext.
      intros u. destruct (String.eqb_spec u t) as [E|E]; simpl.
      * subst. now rewrite Hs.
      * reflexivity.
    + rewrite <- app_assoc. simpl. do 2 f_equal.
      rewrite filter_filter. apply filter_ext.
      intros u. unfold Set_has. rewrite existsb_app. simpl.
      rewrite orb_false_r, negb_orb. apply andb_comm.
Qed.

Lemma Set_of_firstSeen (l : list string) : Set_of l = firstSeen l.
Proof.
  unfold Set_of. rewrite fold_Set_add. simpl. apply filter_true.
Qed.

Lemma get_set {V} (o : obj V) (k k' : string) (v : V) :
  get (set o k v) k' = if String.eqb k k' then Some v else get o k'.
Proof.
  induction o as [|[k0 v0] o IH]; simpl.
  - reflexivity.
  - destruct (String.eqb_spec k0 k) as [E|E]; simpl.
    + subst. destruct (String.eqb k k'); reflexivity.
    + rewrite IH. destruct (String.eqb_spec k0 k') as [E'|E']; [|reflexivity].
      subst. destruct (String.eqb_spec k k'); congruence.
Qed.

Lemma keys_set {V} (o : obj V) (k : string) (v : V) :
  map fst (set o k v) = Set_add (map fst o) k.
Proof.
  unfold Set_add, Set_has. induction o as [|[k0 v0] o IH]; simpl.
  - reflexivity.
  - rewrite (String.eqb_sym k k0).
    destruct (String.eqb k0 k); simpl; [reflexivity|].
    rewrite IH. now destruct (existsb (String.eqb k) (map fst o)).
Qed.

Lemma get_None_keys {V} (o : obj V) (k : string) :
  get o k = None <-> ~ In k (map fst o).
Proof.
  induction o as [|[k0 v0] o IH]; simpl; [tauto|].
  destruct (String.eqb_spec k0 k) as [E|E].
  - split; [discriminate | tauto].
  - rewrite IH. tauto.
Qed.

Lemma get_write {V} (o : obj V) (k k' : string) (v : V) :
  get (write o k v) k'
  = if String.eqb k k' && negb (String.eqb k "__proto__") then Some v
    else get o k'.
Proof.
  unfold write. destruct (String.eqb k "__proto__"); simpl.
  - now rewrite andb_false_r.
  - now rewrite get_set, andb_true_r.
Qed.

Lemma keys_write {V} (o : obj V) (k : string) (v : V) :
  map fst (write o k v)
  = if String.eqb k "__proto__" then map fst o else Set_add (map fst o) k.
Proof.
  unfold write. destruct (String.eqb k "__proto__"); [reflexivity|].
  apply keys_set.
Qed.

Lemma plain_not_proto (k : string) :
  isPrototypeMember k = false -> String.eqb k "__proto__" = false.
Proof.
  intros H. destruct (String.eqb_spec k "__proto__") as [->|]; [|reflexivity].
  discriminate H.
Qed.

(** The counting loop that [extractKeywords], [buildTermFreq] and
    [computeIdf] share: each token adds its weight to its property. *)
Section Counting.

Variable weight : string -> nat.

Let count (o : obj cell) (t : string) : obj cell :=
  write o t (orZeroPlus (read o t) (weight t)).

Lemma counting_other (o : obj cell) (t k : string) :
  t <> k -> get (count o t) k = get o k.
Proof.
  intros H. unfold count. rewrite get_write.
  destruct (String.eqb_spec t k); [contradiction | reflexivity].
Qed.

(** A name that no member of the prototype has: its property is the sum
    of the weights of its occurrences. *)
Lemma counting_plain (l : list string) (o : obj cell) (k : string) :
  isPrototypeMember k = false ->
  get (fold_left count l o) k
  = tallied (get o k) (weight k) (occurrences k l).
Proof.
  intros Hk. pose proof (plain_not_proto k Hk) as Hp.
  revert o; induction l as [|u l IH]; intros o; [reflexivity|].
  simpl fold_left. rewrite IH. unfold occurrences. simpl count_occ.
  destruct (string_dec u k) as [->|Hu].
  - assert (E : get (count o k) k
                = Some (orZeroPlus (read o k) (weight k))).
    { unfold count. now rewrite get_write, String.eqb_refl, Hp. }
    rewrite E. unfold read. rewrite Hk.
    destruct (get o k) as [[n|]|], (count_occ string_dec l k) as [|m];
      simpl; try reflexivity; do 2 f_equal; lia.
  - now rewrite counting_other.
Qed.

(** The name of a member of the prototype never gets a count. *)
Lemma counting_member (l : list string) (o : obj cell) (k : string) :
  isPrototypeMember k = true ->
  get o k = None \/ get o k = Some Text ->
  get (fold_left count l o) k = None
  \/ get (fold_left count l o) k = Some Text.
Proof.
  intros Hk. revert o; induction l as [|u l IH]; intros o Ho; [exact Ho|].
  simpl fold_left. apply IH.
  destruct (string_dec u k) as [->|Hu]; [|now rewrite counting_other].
  unfold count. rewrite get_write, String.eqb_refl. simpl.
  destruct (String.eqb k "__proto__"); simpl; [exact Ho|].
  right. unfold read. rewrite Hk. now destruct Ho as [-> | ->].
Qed.

Lemma counting_keys (l : list string) (o : obj cell) :
  map fst (fold_left count l o)
  = fold_left Set_add
      (filter (fun t => negb (String.eqb t "__proto__")) l) (map fst o).
Proof.
  revert o; induction l as [|t l IH]; intros o; simpl; [reflexivity|].
  rewrite IH. unfold count. rewrite keys_write.
  now destruct (String.eqb t "__proto__").
Qed.

End Counting.

Lemma tallied_add (g : option cell) (w a b : nat) :
  tallied (tallied g w a) w b = tallied g w (a + b).
Proof.
  destruct a as [|a], b as [|b]; simpl; try reflexivity.
  - now rewrite Nat.add_0_r.
  - destruct g as [[n|]|]; simpl; try reflexivity; do 2 f_equal; lia.
Qed.

Lemma filter_proto_plain (l : list string) :
  noPrototypeMember l ->
  filter (fun t => negb (String.eqb t "__proto__")) l = l.
Proof.
  induction 1 as [|t l Ht Hl IH]; simpl; [reflexivity|].
  now rewrite (plain_not_proto t Ht), IH.
Qed.

(** ** The enumeration order of own properties *)

Lemma insertIndex_perm {A} (name : A -> string) (e : A) (l : list A) :
  Permutation (insertIndex name e l) (e :: l).
Proof.
  induction l as [|e' l IH]; simpl; [reflexivity|].
  destruct (indexOf (name e) <=? indexOf (name e'))%N; [reflexivity|].
  rewrite IH. apply perm_swap.
Qed.

Lemma sortIndex_perm {A} (name : A -> string) (l : list A) :
  Permutation (fold_right (insertIndex name) [] l) l.
Proof.
  induction l as [|e l IH]; simpl; [reflexivity|].
  rewrite insertIndex_perm. now constructor.
Qed.

Lemma filter_partition_perm {A} (f : A -> bool) (l : list A) :
  Permutation (filter f l ++ filter (fun x => negb (f x)) l) l.
Proof.
  induction l as [|x l IH]; simpl; [reflexivity|].
  destruct (f x); simpl.
  - now constructor.
  - rewrite <- Permutation_middle. now constructor.
Qed.

Lemma enumerate_perm {A} (name : A -> string) (l : list A) :
  Permutation (enumerate name l) l.
Proof.
  unfold enumerate. rewrite sortIndex_perm. apply filter_partition_perm.
Qed.

Lemma ownProperties_perm {V} (o : obj V) : Permutation (ownProperties o) o.
Proof. apply enumerate_perm. Qed.

Lemma insertIndex_map {A} (name : A -> string) (e : A) (l : list A) :
  map name (insertIndex name e l)
  = insertIndex (fun k => k) (name e) (map name l).
Proof.
  induction l as [|e' l IH]; simpl; [reflexivity|].
  destruct (indexOf (name e) <=? indexOf (name e'))%N; simpl; congruence.
Qed.

Lemma filter_map_name {A B} (f : A -> B) (p : B -> bool) (l : list A) :
  map f (filter (fun e => p (f e)) l) = filter p (map f l).
Proof.
  induction l as [|e l IH]; simpl; [reflexivity|].
  destruct (p (f e)); simpl; congruence.
Qed.

(** The names of the enumerated elements are the enumerated names. *)
Lemma enumerate_map {A} (name : A -> string) (l : list A) :
  map name (enumerate name l) = enumerationOrder (map name l).
Proof.
  unfold enumerationOrder, enumerate. rewrite map_app. f_equal.
  - rewrite <- (filter_map_name name isArrayIndex).
    induction (filter (fun e => isArrayIndex (name e)) l) as [|e l' IH];
      simpl; [reflexivity|].
    now rewrite insertIndex_map, IH.
  - apply (filter_map_name name (fun k => negb (isArrayIndex k))).
Qed.

Lemma Object_keys_In {V} (o : obj V) (k : string) :
  In k (Object_keys o) <-> In k (map fst o).
Proof.
  unfold Object_keys. split; apply Permutation_in, Permutation_map;
    [|symmetry]; apply ownProperties_perm.
Qed.

(** ** [computeIdf] *)

(** Filling a table from a list of names. *)
Lemma fill_get {V} (F : string -> V) (ks : list string) (o : obj V)
  (k : string) :
  get (fold_left (fun (o : obj V) term => write o term (F term)) ks o) k
  = if includes ks k && negb (String.eqb k "__proto__") then Some (F k)
    else get o k.
Proof.
  revert o; induction ks as [|k0 ks IH]; intros o; simpl; [reflexivity|].
  rewrite IH, get_write. rewrite (String.eqb_sym k k0).
  destruct (String.eqb_spec k0 k) as [->|Hk];
    destruct (includes ks k), (String.eqb k "__proto__"); reflexivity.
Qed.

Lemma occurrences_NoDup (t : string) (l : list string) :
  NoDup l -> occurrences t l = if includes l t then 1 else 0.
Proof.
  unfold occurrences. intros Hnd.
  destruct (includes l t) eqn:Hin.
  - apply includes_In in Hin.
    apply NoDup_count_occ' with (decA := string_dec) in Hin; assumption.
  - apply count_occ_not_In. intros H. apply includes_In in H. congruence.
Qed.

Lemma includes_firstSeen (l : list string) (t : string) :
  includes (firstSeen l) t = includes l t.
Proof.
  apply eq_true_iff_eq. rewrite !includes_In. apply firstSeen_In.
Qed.

Lemma dfLoop_plain (docs : list (list string)) (df : obj cell) (t : string) :
  isPrototypeMember t = false ->
  get (dfLoop docs df) t = tallied (get df t) 1 (docFreq t docs).
Proof.
  intros Ht. revert df; induction docs as [|d docs IH]; intros df.
  - reflexivity.
  - unfold dfLoop in *. simpl fold_left. rewrite IH.
    rewrite (counting_plain (fun _ => 1)) by assumption.
    rewrite tallied_add. f_equal.
    rewrite Set_of_firstSeen, occurrences_NoDup by apply firstSeen_NoDup.
    rewrite includes_firstSeen. unfold docFreq. simpl.
    destruct (includes d t); reflexivity.
Qed.

Lemma docFreq_pos (t : string) (docs : list (list string)) :
  (exists d, In d docs /\ In t d) <-> (0 < docFreq t docs)%nat.
Proof.
  unfold docFreq. split.
  - intros (d & Hd & Ht).
    assert (H : In d (filter (fun d => includes d t) docs)).
    { apply filter_In. split; [assumption | now apply includes_In]. }
    destruct (filter _ docs); [destruct H | simpl; lia].
  - intros H. destruct (filter _ docs) as [|d l] eqn:E; [simpl in H; lia|].
    assert (Hd : In d (filter (fun d => includes d t) docs))
      by (rewrite E; now left).
    apply filter_In in Hd. exists d. split; [tauto|]. now apply includes_In.
Qed.

Lemma docFreq_le (t : string) (docs : list (list string)) :
  (docFreq t docs <= List.length docs)%nat.
Proof. apply filter_length_le. Qed.

(** The own property of a name is a key of the table. *)
Lemma get_Some_keys {V} (o : obj V) (k : string) (v : V) :
  get o k = Some v -> In k (map fst o).
Proof.
  intros H. destruct (in_dec string_dec k (map fst o)) as [Hin|Hin];
    [assumption|].
  apply get_None_keys in Hin. congruence.
Qed.

(** The table [computeIdf] returns, at a name that no member of the
    prototype has: a term of some document has the smoothed inverse
    document frequency, any other term has no property. *)
Lemma computeIdf_plain (docs : list (list string)) (term : string) :
  isPrototypeMember term = false ->
  get (computeIdf docs) term
  = if (0 <? docFreq term docs)%nat
    then Some (Num (idfOf (List.length docs) (docFreq term docs)))
    else None.
Proof.
  intros Ht. pose proof (plain_not_proto term Ht) as Hp.
  unfold computeIdf. fold (dfLoop docs []).
  pose proof (dfLoop_plain docs [] term Ht) as Hdf. simpl get in Hdf.
  rewrite (fill_get
             (fun term =>
                match read (dfLoop docs []) term with
                | Own (Count n) =>
                    Num (ln ((INR (List.length docs) + 1) / (INR n + 1)) + 1)%R
                | _ => NaN
                end)).
  rewrite Hp, andb_true_r. simpl get.
  destruct (Nat.ltb_spec 0 (docFreq term docs)) as [Hpos|Hpos].
  - destruct (docFreq term docs) as [|n] eqn:En; [lia|].
    simpl tallied in Hdf. rewrite Nat.add_0_r in Hdf.
    assert (Hin : includes (Object_keys (dfLoop docs [])) term = true).
    { apply includes_In. apply (proj2 (Object_keys_In _ _)).
      eapply get_Some_keys, Hdf. }
    rewrite Hin. unfold read. rewrite Hdf. reflexivity.
  - assert (E0 : docFreq term docs = 0%nat) by lia. rewrite E0 in Hdf.
    simpl in Hdf.
    destruct (includes (Object_keys (dfLoop docs [])) term) eqn:Hin;
      [|reflexivity].
    apply includes_In in Hin. apply (proj1 (Object_keys_In _ _)) in Hin.
    apply get_None_keys in Hdf. contradiction.
Qed.

(** The smoothed inverse document frequency is at least 1. *)
Lemma idfOf_ge_1 (N df : nat) : (df <= N)%nat -> (1 <= idfOf N df)%R.
Proof.
  intros H. unfold idfOf.
  assert (Hdf : (0 < INR df + 1)%R) by (pose proof (pos_INR df); lra).
  assert (HN : (INR df + 1 <= INR N + 1)%R) by (apply le_INR in H; lra).
  assert (H1 : (1 <= (INR N + 1) / (INR df + 1))%R).
  { apply Rmult_le_reg_r with (INR df + 1)%R; [assumption|].
    unfold Rdiv. rewrite Rmult_assoc, Rinv_l by lra. lra. }
  destruct H1 as [H1|H1].
  - apply ln_increasing in H1; [|lra]. rewrite ln_1 in H1. lra.
  - rewrite <- H1, ln_1. lra.
Qed.

(** ** [buildTermFreq] and [tfidfVector] *)

Lemma buildTermFreq_plain (doc : list string) (t : string) :
  isPrototypeMember t = false ->
  get (buildTermFreq doc) t
  = match occurrences t doc with
    | 0 => None
    | S n => Some (Count (S n))
    end.
Proof.
  intros Ht. unfold buildTermFreq.
  rewrite (counting_plain (fun _ => 1)) by assumption. simpl get.
  destruct (occurrences t doc); simpl; [reflexivity|].
  now rewrite Nat.add_0_r.
Qed.

Lemma buildTermFreq_member (doc : list string) (t : string) :
  isPrototypeMember t = true ->
  countOrZero (read (buildTermFreq doc) t) = NotNumeric.
Proof.
  intros Ht.
  pose proof (counting_member (fun _ => 1) doc [] t Ht (or_introl eq_refl))
    as H.
  cbv beta zeta in H. fold (buildTermFreq doc) in H. unfold read.
  destruct H as [E|E]; rewrite E; [now rewrite Ht | reflexivity].
Qed.

Lemma occurrences_pos_docFreq (t : string) (doc : list string)
  (docs : list (list string)) :
  In doc docs -> (0 < occurrences t doc)%nat -> (0 < docFreq t docs)%nat.
Proof.
  intros Hd Ht. apply docFreq_pos. exists doc. split; [assumption|].
  apply (count_occ_In string_dec). exact Ht.
Qed.

(** Each entry of the vector, as soon as the document is one of the
    corpus the table was computed from: the weight of the term, or
    [NaN] for the name of a member of the prototype. *)
Lemma tfidfVector_entries (docs : list (list string)) (doc vocab : list string) :
  In doc docs ->
  tfidfVector doc (computeIdf docs) vocab = map (entry docs doc) vocab.
Proof.
  intros Hd. unfold tfidfVector. apply map_ext. intros t. unfold entry.
  destruct (isPrototypeMember t) eqn:Ht.
  - now rewrite buildTermFreq_member.
  - unfold read. rewrite buildTermFreq_plain, computeIdf_plain, Ht
      by assumption.
    unfold tfidf.
    destruct (occurrences t doc) as [|n] eqn:En.
    + simpl countOrZero.
      destruct (0 <? docFreq t docs)%nat; simpl; apply f_equal; ring.
    + pose proof (occurrences_pos_docFreq t doc docs Hd) as Hp.
      rewrite En in Hp. specialize (Hp ltac:(lia)).
      apply Nat.ltb_lt in Hp. rewrite Hp. reflexivity.
Qed.

Lemma tfidf_nonneg (docs : list (list string)) (doc : list string)
  (t : string) : (0 <= tfidf docs doc t)%R.
Proof.
  unfold tfidf. apply Rmult_le_pos; [apply pos_INR|].
  pose proof (idfOf_ge_1 _ _ (docFreq_le t docs)). lra.
Qed.

(** ** Sums *)

Lemma sumR_perm (l l' : list R) : Permutation l l' -> sumR l = sumR l'.
Proof.
  unfold sumR. induction 1; simpl; lra.
Qed.

Lemma sumProducts_map {A} (f g : A -> R) (l : list A) :
  sumProducts (map f l) (map g l) = sumR (map (fun x => f x * g x)%R l).
Proof.
  induction l as [|x l IH]; simpl; [reflexivity|]. now rewrite IH.
Qed.

Lemma sumProducts_map_perm {A} (f g : A -> R) (l l' : list A) :
  Permutation l l' ->
  sumProducts (map f l) (map g l) = sumProducts (map f l') (map g l').
Proof.
  intros H. rewrite !sumProducts_map. apply sumR_perm. now apply Permutation_map.
Qed.

Lemma sumProducts_comm (a b : list R) : sumProducts a b = sumProducts b a.
Proof.
  revert b; induction a as [|x a IH]; intros [|y b]; simpl; auto.
  rewrite IH. ring.
Qed.

Lemma norm_map_perm {A} (f : A -> R) (l l' : list A) :
  Permutation l l' -> norm (map f l) = norm (map f l').
Proof.
  intros H. unfold norm, sumSquares. f_equal. now apply sumProducts_map_perm.
Qed.

(** ** The Cauchy-Schwarz bound, for vectors without negative entries *)

Lemma sqrt_sum_squares_bound (u v p q : R) :
  (0 <= u -> 0 <= v -> 0 <= p -> 0 <= q ->
   u * v + p * q <= sqrt (u * u + p * p) * sqrt (v * v + q * q))%R.
Proof.
  intros Hu Hv Hp Hq.
  assert (Huv : (0 <= u * v)%R) by now apply Rmult_le_pos.
  assert (Hpq : (0 <= p * q)%R) by now apply Rmult_le_pos.
  assert (H1 : (0 <= u * u + p * p)%R)
    by (pose proof (Rle_0_sqr u); pose proof (Rle_0_sqr p); unfold Rsqr in *; lra).
  assert (H2 : (0 <= v * v + q * q)%R)
    by (pose proof (Rle_0_sqr v); pose proof (Rle_0_sqr q); unfold Rsqr in *; lra).
  rewrite <- sqrt_mult by assumption.
  rewrite <- (sqrt_square (u * v + p * q)) at 1 by lra.
  apply sqrt_le_1.
  - apply Rmult_le_pos; lra.
  - now apply Rmult_le_pos.
  - pose proof (Rle_0_sqr (u * q - p * v)) as H. unfold Rsqr in H.
    replace ((u * u + p * p) * (v * v + q * q))%R
      with ((u * v + p * q) * (u * v + p * q)
            + (u * q - p * v) * (u * q - p * v))%R by ring.
    lra.
Qed.

Lemma sumProducts_nonneg (a b : list R) :
  Forall (fun x => 0 <= x)%R a -> Forall (fun x => 0 <= x)%R b ->
  (0 <= sumProducts a b)%R.
Proof.
  intros Ha; revert b; induction Ha as [|x a Hx Ha IH]; intros b Hb; simpl;
    [lra|].
  destruct Hb as [|y b Hy Hb]; [lra|].
  specialize (IH b Hb). nra.
Qed.

Lemma norm_cons (x : R) (a : list R) :
  norm (x :: a) = sqrt (x * x + norm a * norm a).
Proof. rewrite norm_sqr. reflexivity. Qed.

Lemma sumProducts_le_norms (a b : list R) :
  Forall (fun x => 0 <= x)%R a -> Forall (fun x => 0 <= x)%R b ->
  (sumProducts a b <= norm a * norm b)%R.
Proof.
  intros Ha; revert b; induction Ha as [|x a Hx Ha IH]; intros b Hb.
  - simpl. apply Rmult_le_pos; apply norm_nonneg.
  - destruct Hb as [|y b Hy Hb].
    + simpl. apply Rmult_le_pos; apply norm_nonneg.
    + specialize (IH b Hb). simpl sumProducts.
      pose proof (norm_nonneg a) as Na. pose proof (norm_nonneg b) as Nb.
      pose proof (sqrt_sum_squares_bound x y (norm a) (norm b) Hx Hy Na Nb)
        as H2.
      rewrite !norm_cons. lra.
Qed.

(** On two vectors of one length without negative entries,
    [cosineSimilarity] is a number between 0 and 1. *)
Lemma cosineSimilarity_range (a b : list R) :
  List.length a = List.length b ->
  Forall (fun x => 0 <= x)%R a -> Forall (fun x => 0 <= x)%R b ->
  exists s, cosineSimilarity (vec a) (vec b) = Num s /\ (0 <= s <= 1)%R.
Proof.
  intros Hlen Ha Hb. rewrite cosineSimilarity_cases.
  destruct (Req_dec_T (norm a * norm b) 0) as [E|E].
  - exists 0%R. split; [reflexivity | lra].
  - rewrite Hlen, Nat.leb_refl. eexists. split; [reflexivity|].
    pose proof (norm_nonneg a) as Na. pose proof (norm_nonneg b) as Nb.
    assert (Hd : (0 < norm a * norm b)%R) by nra.
    pose proof (sumProducts_nonneg a b Ha Hb) as H0.
    pose proof (sumProducts_le_norms a b Ha Hb) as H1.
    split.
    + unfold Rdiv. apply Rmult_le_pos; [assumption|].
      left. now apply Rinv_0_lt_compat.
    + apply Rmult_le_reg_r with (norm a * norm b)%R; [assumption|].
      unfold Rdiv. rewrite Rmult_assoc, Rinv_l by lra. lra.
Qed.

(** ** [Array.prototype.sort] *)

Section Sorting.

Context {A : Type}.
Variable comparefn : A -> A -> int.

Lemma insert_perm (x : A) (l : list A) :
  Permutation (insert comparefn x l) (x :: l).
Proof.
  induction l as [|y l IH]; simpl; [reflexivity|].
  destruct (staysBefore (comparefn x y)); [reflexivity|].
  rewrite IH. apply perm_swap.
Qed.

Lemma Array_sort_perm (l : list A) : Permutation (Array_sort comparefn l) l.
Proof.
  unfold Array_sort. induction l as [|x l IH]; simpl; [reflexivity|].
  rewrite insert_perm. now constructor.
Qed.

(** The comparator puts the elements that satisfy [P] in descending
    order of [key]. *)
Variable key : A -> Z.
Variable P : A -> Prop.
Hypothesis comparefn_key :
  forall a b, P a -> P b -> comparefn a b = descending key a b.

Lemma insert_sorted (x : A) (l : list A) :
  P x -> Forall P l -> StronglySorted (above key) l ->
  StronglySorted (above key) (insert comparefn x l).
Proof.
  intros Hx Hl Hs. induction Hs as [|y l Hs IH Hy]; simpl.
  - repeat constructor.
  - inversion_clear Hl as [|? ? Py Pl].
    rewrite (comparefn_key x y Hx Py). unfold descending, staysBefore.
    destruct (Z.leb_spec (key y - key x) 0) as [H|H].
    + constructor; [now constructor|]. constructor; [unfold above; lia|].
      rewrite Forall_forall in *. intros z Hz. specialize (Hy z Hz).
      unfold above in *. lia.
    + constructor; [now apply IH|].
      rewrite (insert_perm x l). constructor; [unfold above; lia | assumption].
Qed.

Lemma Array_sort_sorted (l : list A) :
  Forall P l -> StronglySorted (above key) (Array_sort comparefn l).
Proof.
  unfold Array_sort. induction 1 as [|x l Hx Hl IH]; simpl; [constructor|].
  apply insert_sorted; try assumption.
  now rewrite (Array_sort_perm l).
Qed.

Lemma insert_stable (x : A) (l : list A) (k : Z) :
  P x -> Forall P l ->
  filter (fun a => (key a =? k)%Z) (insert comparefn x l)
  = filter (fun a => (key a =? k)%Z) (x :: l).
Proof.
  intros Hx Hl. induction Hl as [|y l Py Pl IH]; [reflexivity|].
  simpl insert. rewrite (comparefn_key x y Hx Py).
  unfold descending, staysBefore.
  destruct (Z.leb_spec (key y - key x) 0) as [H|H]; [reflexivity|].
  simpl. rewrite IH. simpl.
  destruct (Z.eqb_spec (key x) k), (Z.eqb_spec (key y) k); try reflexivity.
  lia.
Qed.

Lemma Array_sort_stable (l : list A) (k : Z) :
  Forall P l ->
  filter (fun a => (key a =? k)%Z) (Array_sort comparefn l)
  = filter (fun a => (key a =? k)%Z) l.
Proof.
  unfold Array_sort. induction 1 as [|x l Hx Hl IH]; [reflexivity|].
  simpl fold_right. rewrite insert_stable; try assumption.
  - simpl. now rewrite IH.
  - now rewrite (Array_sort_perm l).
Qed.

End Sorting.

Section SortingImages.

Context {A B : Type}.
Variable f : A -> B.
Variable comparefn : A -> A -> int.
Variable comparefn' : B -> B -> int.
Variable P : A -> Prop.
Hypothesis comparefn_image :
  forall a b, P a -> P b -> comparefn a b = comparefn' (f a) (f b).

Lemma insert_map (x : A) (l : list A) :
  P x -> Forall P l ->
  map f (insert comparefn x l) = insert comparefn' (f x) (map f l).
Proof.
  intros Hx Hl. induction Hl as [|y l Py Pl IH]; [reflexivity|].
  simpl. rewrite (comparefn_image x y Hx Py).
  destruct (staysBefore (comparefn' (f x) (f y))); simpl; congruence.
Qed.

(** Sorting elements and then taking their images is sorting the images. *)
Lemma Array_sort_map (l : list A) :
  Forall P l ->
  map f (Array_sort comparefn l) = Array_sort comparefn' (map f l).
Proof.
  unfold Array_sort. induction 1 as [|x l Hx Hl IH]; [reflexivity|].
  simpl. rewrite insert_map, IH; try assumption; [reflexivity|].
  now rewrite (Array_sort_perm comparefn l).
Qed.

End SortingImages.

(** ** Printing and reading a score *)

Lemma horner_pos (d : Decimal.uint) (p : positive) :
  horner d (Npos p) = Npos (Pos.of_uint_acc d p).
Proof.
  revert p; induction d; intros p; cbn [horner Pos.of_uint_acc];
    [reflexivity | ..]; rewrite <- IHd; f_equal; lia.
Qed.

Lemma horner_0 (d : Decimal.uint) : horner d 0 = Pos.of_uint d.
Proof.
  induction d; cbn [horner Pos.of_uint]; try reflexivity;
    try (rewrite <- horner_pos; f_equal; lia).
  rewrite <- IHd. f_equal.
Qed.

Lemma leadingDigits_uint (d : Decimal.uint) (c : ascii) (rest : string)
  (a : N) :
  isDigit c = false ->
  leadingDigits (NilEmpty.string_of_uint d ++ String c rest)%string (Some a)
  = Some (horner d a).
Proof.
  intros Hc. revert a; induction d; intros a; simpl;
    try (rewrite IHd; reflexivity).
  now rewrite Hc.
Qed.

Lemma parseInt_uint (d : Decimal.uint) (c : ascii) (rest : string) :
  d <> Decimal.Nil -> isDigit c = false ->
  parseInt (NilEmpty.string_of_uint d ++ String c rest)%string
  = Num (Z.of_N (horner d 0)).
Proof.
  intros Hd Hc. unfold parseInt.
  destruct d; try congruence; simpl;
    rewrite (leadingDigits_uint _ c rest) by assumption; reflexivity.
Qed.

(** Reading back the score that the route printed: [parseInt] of the
    decimal form of a natural number followed by a percent sign. *)
Lemma parseInt_toString (n : N) :
  parseInt (Number_toString (Num (Z.of_N n)) ++ "%")%string
  = Num (Z.of_N n).
Proof.
  assert (E : Number_toString (Num (Z.of_N n))
              = NilZero.string_of_uint (N.to_uint n)).
  { unfold Number_toString. destruct n; simpl; reflexivity. }
  rewrite E.
  assert (Hnil : N.to_uint n <> Decimal.Nil).
  { destruct n; simpl; [discriminate | apply DecimalPos.Unsigned.to_uint_nonnil]. }
  assert (E2 : NilZero.string_of_uint (N.to_uint n)
               = NilEmpty.string_of_uint (N.to_uint n)).
  { unfold NilZero.string_of_uint. now destruct (N.to_uint n). }
  rewrite E2, parseInt_uint by (assumption || reflexivity).
  rewrite horner_0. fold (N.of_uint (N.to_uint n)).
  now rewrite DecimalN.Unsigned.of_to.
Qed.

(** ** [semanticSimilarity] *)

Lemma docFreq_swap (t : string) (a b : list string) :
  docFreq t [a; b] = docFreq t [b; a].
Proof.
  unfold docFreq. simpl. destruct (includes a t), (includes b t); reflexivity.
Qed.

Lemma tfidf_swap (a b doc : list string) (t : string) :
  tfidf [a; b] doc t = tfidf [b; a] doc t.
Proof. unfold tfidf. now rewrite docFreq_swap. Qed.

Lemma firstSeen_app_perm (a b : list string) :
  Permutation (firstSeen (a ++ b)) (firstSeen (b ++ a)).
Proof.
  apply NoDup_Permutation; try apply firstSeen_NoDup.
  intros t. rewrite !firstSeen_In, !in_app_iff. tauto.
Qed.

Lemma noPrototypeMember_existsb (l : list string) :
  noPrototypeMember l <-> existsb isPrototypeMember l = false.
Proof.
  unfold noPrototypeMember. induction l as [|t l IH]; simpl.
  - split; [reflexivity | constructor].
  - rewrite orb_false_iff, <- IH. split.
    + intros H. inversion H. tauto.
    + intros [H1 H2]. now constructor.
Qed.

Lemma noPrototypeMember_app (a b : list string) :
  noPrototypeMember (a ++ b) <-> noPrototypeMember a /\ noPrototypeMember b.
Proof. apply Forall_app. Qed.

(** Without the name of a member of the prototype among the tokens, the
    two vectors are vectors of weights. *)
Lemma pairSimilarity_plain (a b : list string) :
  noPrototypeMember (a ++ b) ->
  pairSimilarity a b
  = cosineSimilarity
      (vec (map (tfidf [a; b] a) (firstSeen (a ++ b))))
      (vec (map (tfidf [a; b] b) (firstSeen (a ++ b)))).
Proof.
  intros H. unfold pairSimilarity, vec. rewrite !map_map.
  assert (E : forall doc t, In t (firstSeen (a ++ b)) ->
                            entry [a; b] doc t = Num (tfidf [a; b] doc t)).
  { intros doc t Ht. apply (proj1 (firstSeen_In _ _)) in Ht. unfold entry.
    unfold noPrototypeMember in H. rewrite Forall_forall in H.
    now rewrite (H t Ht). }
  f_equal; apply map_ext_in; intros t Ht; now apply E.
Qed.

(** With such a name among the tokens, the similarity is [NaN]. *)
Lemma pairSimilarity_member (a b : list string) :
  existsb isPrototypeMember (a ++ b) = true -> pairSimilarity a b = NaN.
Proof.
  intros H. apply existsb_exists in H as (t & Hin & Ht).
  unfold pairSimilarity. apply cosineSimilarity_NaN.
  apply in_map_iff. exists t. split.
  - unfold entry. now rewrite Ht.
  - now apply firstSeen_In.
Qed.

Lemma pairSimilarity_sym (a b : list string) :
  pairSimilarity a b = pairSimilarity b a.
Proof.
  destruct (existsb isPrototypeMember (a ++ b)) eqn:H.
  - rewrite (pairSimilarity_member a b H). symmetry.
    apply pairSimilarity_member.
    rewrite existsb_app, orb_comm, <- existsb_app. exact H.
  - assert (H' : existsb isPrototypeMember (b ++ a) = false)
      by (rewrite existsb_app, orb_comm, <- existsb_app; exact H).
    apply noPrototypeMember_existsb in H, H'.
    rewrite !pairSimilarity_plain by assumption.
    rewrite !cosineSimilarity_cases.
    rewrite !length_map, !Nat.leb_refl.
    pose proof (firstSeen_app_perm a b) as P.
    rewrite (map_ext (tfidf [b; a] b) (tfidf [a; b] b))
      by (intros; apply tfidf_swap).
    rewrite (map_ext (tfidf [b; a] a) (tfidf [a; b] a))
      by (intros; apply tfidf_swap).
    rewrite <- (norm_map_perm (tfidf [a; b] a) _ _ P).
    rewrite <- (norm_map_perm (tfidf [a; b] b) _ _ P).
    rewrite <- (sumProducts_map_perm (tfidf [a; b] b) (tfidf [a; b] a) _ _ P).
    rewrite (sumProducts_comm (map (tfidf [a; b] b) _)).
    rewrite (Rmult_comm (norm (map (tfidf [a; b] b) _))).
    reflexivity.
Qed.

Lemma pairSimilarity_range (a b : list string) :
  noPrototypeMember (a ++ b) ->
  exists s, pairSimilarity a b = Num s /\ (0 <= s <= 1)%R.
Proof.
  intros H. rewrite pairSimilarity_plain by assumption.
  apply cosineSimilarity_range.
  - now rewrite !length_map.
  - apply Forall_map, Forall_forall. intros; apply tfidf_nonneg.
  - apply Forall_map, Forall_forall. intros; apply tfidf_nonneg.
Qed.

Section Properties.

Variable tokenizer : string -> list string.
Variable stopWords : list string.

Local Notation "'tokensOf'" := (cleanAndTokenize tokenizer stopWords).

(** [semanticSimilarity] in terms of the two token sequences. *)
Lemma semanticSimilarity_tokens (resumeText jobDescription : option string) :
  semanticSimilarity tokenizer stopWords resumeText jobDescription
  = match tokensOf resumeText, tokensOf jobDescription with
    | [], _ | _, [] => Num 0%Z
    | a, b => Math_round (nmul (pairSimilarity a b) (Num 100%R))
    end.
Proof.
  unfold semanticSimilarity, pairSimilarity.
  destruct (tokensOf resumeText) as [|t a] eqn:Ea; [reflexivity|].
  destruct (tokensOf jobDescription) as [|u b] eqn:Eb; [reflexivity|].
  cbv zeta. simpl orb. cbv iota.
  rewrite Set_of_firstSeen.
  rewrite !tfidfVector_entries; [reflexivity | right; now left | now left].
Qed.

(** In exact arithmetic, [semanticSimilarity(a, b)] equals
    [semanticSimilarity(b, a)] for every pair of texts [a] and [b]; both
    are [NaN] when a token of [a] or of [b] is the name of a member of
    [Object.prototype]. *)
Theorem semanticSimilarity_sym (a b : option string) :
  semanticSimilarity tokenizer stopWords a b
  = semanticSimilarity tokenizer stopWords b a.
Proof.
  rewrite !semanticSimilarity_tokens.
  destruct (tokensOf a) as [|t ta], (tokensOf b) as [|u tb]; try reflexivity.
  now rewrite pairSimilarity_sym.
Qed.

Lemma semanticSimilarity_range (resumeText jobDescription : option string) :
  noPrototypeMember (tokensOf resumeText ++ tokensOf jobDescription) ->
  exists z,
    semanticSimilarity tokenizer stopWords resumeText jobDescription = Num z
    /\ (0 <= z <= 100)%Z.
Proof.
  intros Hp. rewrite semanticSimilarity_tokens.
  assert (H0 : exists z : Z, @Num Z 0%Z = Num z /\ (0 <= z <= 100)%Z)
    by (exists 0%Z; split; [reflexivity | lia]).
  destruct (tokensOf resumeText) as [|t a]; [exact H0|].
  destruct (tokensOf jobDescription) as [|u b]; [exact H0|].
  destruct (pairSimilarity_range (t :: a) (u :: b) Hp) as (s & -> & Hs).
  simpl nmul. apply Math_round_bounds. simpl. lra.
Qed.

(** A text with the name of a member of [Object.prototype] among its
    tokens has the similarity [NaN] with every text that has a token. *)
Lemma semanticSimilarity_member (resumeText jobDescription : option string) :
  tokensOf resumeText <> [] -> tokensOf jobDescription <> [] ->
  existsb isPrototypeMember (tokensOf resumeText ++ tokensOf jobDescription)
  = true ->
  semanticSimilarity tokenizer stopWords resumeText jobDescription = NaN.
Proof.
  intros Ha Hb Hm. rewrite semanticSimilarity_tokens.
  destruct (tokensOf resumeText) as [|t a]; [congruence|].
  destruct (tokensOf jobDescription) as [|u b]; [congruence|].
  now rewrite pairSimilarity_member.
Qed.

(** ** [keywordMatchPercentage] *)

Lemma matches_loop (resumeTokens jobKeywords : list string) (m : nat) :
  fold_left
    (fun matches k => if Set_has resumeTokens k then S matches else matches)
    jobKeywords m
  = (m + matchedCount resumeTokens jobKeywords)%nat.
Proof.
  unfold matchedCount, includes. fold (Set_has resumeTokens).
  revert m; induction jobKeywords as [|k l IH]; intros m; simpl; [lia|].
  rewrite IH. destruct (Set_has resumeTokens k); simpl; lia.
Qed.

Lemma matchedCount_le (resumeTokens jobKeywords : list string) :
  (matchedCount resumeTokens jobKeywords <= List.length jobKeywords)%nat.
Proof. apply filter_length_le. Qed.

(** The percentage as [Math.round] of the exact quotient. *)
Lemma keywordMatchPercentage_round (resumeText : option string)
  (jobKeywords : list string) :
  jobKeywords <> [] ->
  keywordMatchPercentage tokenizer stopWords resumeText (Some jobKeywords)
  = Math_round
      (Num (IZR (100 * Z.of_nat
                         (matchedCount (firstSeen (tokensOf resumeText))
                            jobKeywords))
            / IZR (Z.of_nat (List.length jobKeywords)))%R).
Proof.
  intros Hne. destruct jobKeywords as [|k l]; [congruence|].
  set (kws := k :: l) in *.
  assert (Hlen : (0 < List.length kws)%nat) by (simpl; lia).
  unfold keywordMatchPercentage. subst kws. cbv iota.
  rewrite matches_loop, Set_of_firstSeen. simpl plus.
  do 2 apply f_equal. rewrite mult_IZR, <- !INR_IZR_INZ.
  apply lt_0_INR in Hlen. field. lra.
Qed.

Lemma roundDiv_percentage (m n : nat) :
  (0 < n)%nat -> (m <= n)%nat ->
  (0 <= roundDiv (100 * Z.of_nat m) (Z.of_nat n) <= 100)%Z.
Proof.
  intros Hn Hm. unfold roundDiv. split.
  - apply Z.div_pos; lia.
  - assert ((2 * (100 * Z.of_nat m) + Z.of_nat n) / (2 * Z.of_nat n) < 101)%Z;
      [apply Z.div_lt_upper_bound; lia | lia].
Qed.

Lemma keywordMatchPercentage_range (resumeText : option string)
  (jobKeywords : option (list string)) :
  exists z,
    keywordMatchPercentage tokenizer stopWords resumeText jobKeywords = Num z
    /\ (0 <= z <= 100)%Z.
Proof.
  assert (H0 : exists z : Z, @Num Z 0%Z = Num z /\ (0 <= z <= 100)%Z)
    by (exists 0%Z; split; [reflexivity | lia]).
  destruct jobKeywords as [[|k l]|]; try exact H0.
  rewrite keywordMatchPercentage_round by discriminate.
  rewrite Math_round_quotient by (simpl; lia).
  eexists. split; [reflexivity|].
  apply roundDiv_percentage; [simpl; lia | apply matchedCount_le].
Qed.

(** In exact arithmetic, for every resume text and every non-empty
    keyword list, [keywordMatchPercentage] is
    [round(100 * matchedCount / length)],
    where [matchedCount] is the number of the job's keywords that occur
    among the distinct tokens of the resume text; the rounding is to the
    nearest integer, which is [(200 * matchedCount + length) / (2 * length)]
    in integer division. *)
Theorem keywordMatchPercentage_formula (resumeText : option string)
  (jobKeywords : list string) :
  jobKeywords <> [] ->
  keywordMatchPercentage tokenizer stopWords resumeText (Some jobKeywords)
  = Math_round
      (Num (100 * INR (matchedCount (firstSeen (tokensOf resumeText)) jobKeywords)
            / INR (List.length jobKeywords))%R)
  /\ keywordMatchPercentage tokenizer stopWords resumeText (Some jobKeywords)
     = Num (roundDiv
              (100 * Z.of_nat
                       (matchedCount (firstSeen (tokensOf resumeText)) jobKeywords))
              (Z.of_nat (List.length jobKeywords))).
Proof.
  intros Hne. rewrite keywordMatchPercentage_round by assumption.
  assert (Hlen : (0 < List.length jobKeywords)%nat)
    by (destruct jobKeywords; [congruence | simpl; lia]).
  split.
  - do 2 apply f_equal. now rewrite mult_IZR, <- !INR_IZR_INZ.
  - apply Math_round_quotient. lia.
Qed.

(** ** [finalMatchScore] *)

Lemma roundDiv_final (kw sem : Z) :
  (0 <= kw <= 100)%Z -> (0 <= sem <= 100)%Z ->
  (0 <= roundDiv (4 * kw + 6 * sem) 10 <= 100)%Z.
Proof.
  intros Hkw Hsem. unfold roundDiv. split.
  - apply Z.div_pos; lia.
  - assert ((2 * (4 * kw + 6 * sem) + 10) / (2 * 10) < 101)%Z;
      [apply Z.div_lt_upper_bound; lia | lia].
Qed.

Lemma weighted_round (kw sem : Z) :
  Math_round (Num (IZR kw * (4 / 10) + IZR sem * (6 / 10))%R)
  = Num (roundDiv (4 * kw + 6 * sem) 10).
Proof.
  rewrite <- Math_round_quotient by lia. do 2 apply f_equal.
  rewrite plus_IZR, !mult_IZR. field.
Qed.

(** [job.description || ''] has the tokens of [job.description]. *)
Lemma description_tokens (j : job) :
  tokensOf (Some match description j with
                 | Some EmptyString | None => EmptyString
                 | Some d => d
                 end)
  = tokensOf (description j).
Proof. destruct (description j) as [[|c d]|]; reflexivity. Qed.

(** The three scores, the final one by integer arithmetic. *)
Lemma finalMatchScore_scores (resumeText : option string) (j : job) :
  noPrototypeMember (tokensOf resumeText ++ tokensOf (description j)) ->
  exists kw sem : Z,
    (0 <= kw <= 100)%Z /\ (0 <= sem <= 100)%Z
    /\ finalMatchScore tokenizer stopWords resumeText j
       = {| final := Num (roundDiv (4 * kw + 6 * sem) 10);
            kwScore := Num kw;
            semScore := Num sem |}.
Proof.
  intros Hp. rewrite <- description_tokens in Hp. unfold finalMatchScore.
  destruct (keywordMatchPercentage_range resumeText
              (Some match keywords j with Some k => k | None => [] end))
    as (kw & -> & Hkw).
  destruct (semanticSimilarity_range resumeText _ Hp) as (sem & -> & Hsem).
  cbv zeta. simpl toNum. simpl nmul. simpl nadd.
  rewrite weighted_round. now exists kw, sem.
Qed.

(** For every resume text and every job record none of whose tokens is
    the name of a member of [Object.prototype], [finalMatchScore] returns
    a triple of integers between 0 and 100 in which [final] is
    [round(0.4 * kwScore + 0.6 * semScore)]. *)
Theorem finalMatchScore_range (resumeText : option string) (j : job) :
  noPrototypeMember (tokensOf resumeText ++ tokensOf (description j)) ->
  exists f kw sem : Z,
    finalMatchScore tokenizer stopWords resumeText j
    = {| final := Num f; kwScore := Num kw; semScore := Num sem |}
    /\ (0 <= f <= 100)%Z /\ (0 <= kw <= 100)%Z /\ (0 <= sem <= 100)%Z
    /\ Num f = Math_round (Num (4 / 10 * IZR kw + 6 / 10 * IZR sem)%R)
    /\ f = roundDiv (4 * kw + 6 * sem) 10.
Proof.
  intros Hp.
  destruct (finalMatchScore_scores resumeText j Hp)
    as (kw & sem & Hkw & Hsem & E).
  exists (roundDiv (4 * kw + 6 * sem) 10), kw, sem.
  split; [exact E|]. split; [now apply roundDiv_final|].
  split; [assumption|]. split; [assumption|]. split; [|reflexivity].
  rewrite <- weighted_round. do 2 apply f_equal. field.
Qed.

(** ** Degenerate inputs *)

Lemma magnitude_zero_norm (a : list R) :
  magnitude (vec a) = Num 0%R -> norm a = 0%R.
Proof. rewrite magnitude_norm. now intros [= ->]. Qed.

(** In exact arithmetic, every degenerate input gives the number 0, not
    an exception and not [NaN]: [semanticSimilarity] when one of the two
    texts has no token, [keywordMatchPercentage] when the keyword list is
    empty (or missing), and [cosineSimilarity] when one of the two vectors
    has magnitude 0. *)
Theorem degenerate_inputs_give_zero :
  (forall resumeText jobDescription,
      tokensOf resumeText = [] \/ tokensOf jobDescription = [] ->
      semanticSimilarity tokenizer stopWords resumeText jobDescription
      = Num 0%Z)
  /\ (forall resumeText,
        keywordMatchPercentage tokenizer stopWords resumeText (Some [])
        = Num 0%Z
        /\ keywordMatchPercentage tokenizer stopWords resumeText None
           = Num 0%Z)
  /\ (forall vecA vecB : list R,
        magnitude (vec vecA) = Num 0%R \/ magnitude (vec vecB) = Num 0%R ->
        call_cosineSimilarity vecA vecB = Returns (Num 0%R)).
Proof.
  split; [|split].
  - intros r j H. rewrite semanticSimilarity_tokens.
    destruct H as [-> | ->]; [reflexivity|].
    now destruct (tokensOf r).
  - intros r. split; reflexivity.
  - intros a b H. unfold call_cosineSimilarity. f_equal.
    rewrite cosineSimilarity_cases.
    destruct (Req_dec_T (norm a * norm b) 0) as [E|E]; [reflexivity|].
    exfalso. apply E.
    destruct H as [H|H]; apply magnitude_zero_norm in H; rewrite H; ring.
Qed.

(** ** The ranking of the [/match] route *)

Lemma toMatch_shownScore (resumeText : string) (j : job) :
  noPrototypeMember (tokensOf (Some resumeText) ++ tokensOf (description j)) ->
  shownScore (toMatch tokenizer stopWords resumeText j)
  = final (finalMatchScore tokenizer stopWords (Some resumeText) j)
  /\ exists z, shownScore (toMatch tokenizer stopWords resumeText j) = Num z.
Proof.
  intros Hp.
  destruct (finalMatchScore_scores (Some resumeText) j Hp)
    as (kw & sem & Hkw & Hsem & E).
  pose proof (roundDiv_final kw sem Hkw Hsem) as Hf.
  unfold shownScore, toMatch. cbv zeta. cbn [matchScore]. rewrite E.
  cbn [final]. rewrite <- (Z2N.id (roundDiv _ _)) by lia.
  rewrite parseInt_toString. eauto.
Qed.

(** For every resume text and every sequence of jobs, no token of which
    is the name of a member of [Object.prototype], the ranking has one
    scored entry per job, the entries stand in descending order of the
    final score, and the entries of one final score stand in the order
    their jobs have in the input. *)
Theorem rankJobs_sorted_stable (resumeText : string) (storedJobs : list job) :
  noPrototypeMember (tokensOf (Some resumeText)) ->
  Forall (fun j => noPrototypeMember (tokensOf (description j))) storedJobs ->
  let scored := map (toMatch tokenizer stopWords resumeText) storedJobs in
  let ranked := rankJobs tokenizer stopWords resumeText storedJobs in
  Permutation ranked scored
  /\ List.length ranked = List.length storedJobs
  /\ Forall
       (fun j =>
          shownScore (toMatch tokenizer stopWords resumeText j)
          = final (finalMatchScore tokenizer stopWords (Some resumeText) j))
       storedJobs
  /\ Forall (fun m => shownScore m = Num (scoreOf m)) ranked
  /\ StronglySorted (above scoreOf) ranked
  /\ forall s : Z,
       filter (fun m => (scoreOf m =? s)%Z) ranked
       = filter (fun m => (scoreOf m =? s)%Z) scored.
Proof.
  intros Hr Hjobs. cbv zeta. unfold rankJobs.
  set (scored := map (toMatch tokenizer stopWords resumeText) storedJobs).
  assert (Hall : forall j, In j storedJobs ->
                   noPrototypeMember
                     (tokensOf (Some resumeText) ++ tokensOf (description j))).
  { intros j Hj. apply noPrototypeMember_app. split; [assumption|].
    rewrite Forall_forall in Hjobs. now apply Hjobs. }
  pose (P := fun m : jobMatch => shownScore m = Num (scoreOf m)).
  assert (HP : Forall P scored).
  { apply Forall_map, Forall_forall. intros j Hj.
    destruct (toMatch_shownScore resumeText j (Hall j Hj)) as [_ [z Hz]].
    unfold P, scoreOf. now rewrite Hz. }
  assert (Hcmp : forall a b,
             P a -> P b -> byMatchScore a b = descending scoreOf a b).
  { intros a b Ha Hb. unfold byMatchScore, descending.
    fold (shownScore a) (shownScore b). now rewrite Ha, Hb. }
  fold byMatchScore.
  pose proof (Array_sort_perm byMatchScore scored) as Hperm.
  split; [exact Hperm|]. split.
  - rewrite (Permutation_length Hperm). apply length_map.
  - split; [|split; [|split]].
    + apply Forall_forall. intros j Hj. now apply toMatch_shownScore, Hall.
    + now rewrite Hperm.
    + now apply (Array_sort_sorted byMatchScore scoreOf P).
    + intros s. now apply (Array_sort_stable byMatchScore scoreOf P).
Qed.

(** ** [extractKeywords] *)

Lemma obj_by_keys {V} (F : string -> V) (o : obj V) :
  NoDup (map fst o) ->
  (forall k, In k (map fst o) -> get o k = Some (F k)) ->
  o = map (fun k => (k, F k)) (map fst o).
Proof.
  induction o as [|[k v] o IH]; simpl; intros Hnd HF; [reflexivity|].
  inversion_clear Hnd as [|? ? Hk Ho].
  pose proof (HF k (or_introl eq_refl)) as Hv.
  rewrite String.eqb_refl in Hv. injection Hv as ->. f_equal.
  apply IH; [assumption|]. intros k' Hk'.
  specialize (HF k' (or_intror Hk')).
  destruct (String.eqb_spec k k') as [->|]; [contradiction | exact HF].
Qed.

(** The table [freq] of [extractKeywords]: the distinct tokens in the
    order of their first occurrence, each with its accumulated weight. *)
Lemma freq_table (tokens : list string) :
  noPrototypeMember tokens ->
  fold_left
    (fun (freq : obj cell) t =>
       write freq t
         (orZeroPlus (read freq t) (if Set_has ART_KEYWORDS t then 4 else 1)))
    tokens []
  = map (fun t => (t, Count (tokenWeight tokens t))) (firstSeen tokens).
Proof.
  intros Hp.
  pose proof (counting_keys boost tokens []) as Hk.
  pose proof (counting_plain boost tokens []) as Hv.
  cbv zeta in Hk, Hv. unfold boost in Hk, Hv at 1.
  set (freq := fold_left (fun (o : obj cell) t => write o t _) tokens []) in *.
  rewrite filter_proto_plain in Hk by assumption.
  change (fold_left Set_add tokens (map fst [])) with (Set_of tokens) in Hk.
  rewrite Set_of_firstSeen in Hk.
  rewrite (obj_by_keys (fun t => Count (tokenWeight tokens t)) freq).
  - now rewrite Hk.
  - rewrite Hk. apply firstSeen_NoDup.
  - intros k Hin. rewrite Hk in Hin. apply (proj1 (firstSeen_In _ _)) in Hin.
    unfold noPrototypeMember in Hp. rewrite Forall_forall in Hp.
    rewrite (Hv k (Hp k Hin)). simpl get. unfold tokenWeight.
    apply (count_occ_In string_dec) in Hin. fold (occurrences k tokens) in Hin.
    destruct (occurrences k tokens); [lia | reflexivity].
Qed.

(** The result of [extractKeywords]: a prefix of the distinct tokens in
    descending order of weight, the tokens of one weight in the
    enumeration order of the properties of [freq]. *)
Lemma extractKeywords_ranked (text : option string) (limit : option nat) :
  let tokens := tokensOf text in
  let n := match limit with Some n => n | None => 20 end in
  let weight t := Z.of_nat (boost t * occurrences t tokens) in
  noPrototypeMember tokens ->
  exists ranked : list string,
    extractKeywords tokenizer stopWords text limit = firstn n ranked
    /\ Permutation ranked (firstSeen tokens)
    /\ StronglySorted (above weight) ranked
    /\ forall w : Z,
         filter (fun t => (weight t =? w)%Z) ranked
         = filter (fun t => (weight t =? w)%Z)
             (enumerationOrder (firstSeen tokens)).
Proof.
  cbv zeta. set (tokens := tokensOf text). intros Hp.
  set (weight := fun t => Z.of_nat (boost t * occurrences t tokens)).
  exists (Array_sort (descending weight) (enumerationOrder (firstSeen tokens))).
  assert (HT : Forall (fun _ : string => True)
                 (enumerationOrder (firstSeen tokens)))
    by (apply Forall_forall; auto).
  split; [|split; [|split]].
  - unfold extractKeywords. fold tokens. cbv zeta.
    rewrite freq_table by assumption.
    unfold slice0. rewrite <- firstn_map. f_equal.
    unfold Object_entries, ownProperties.
    rewrite (Array_sort_map fst _ (descending weight)
               (fun e => snd e = Count (tokenWeight tokens (fst e)))).
    + now rewrite enumerate_map, map_map, map_id.
    + intros [a va] [b vb] Ha Hb. cbn [fst snd] in Ha, Hb |- *.
      rewrite Ha, Hb. reflexivity.
    + rewrite enumerate_perm. apply Forall_map, Forall_forall. now intros.
  - rewrite Array_sort_perm. apply enumerate_perm.
  - apply (Array_sort_sorted _ weight (fun _ => True)); auto.
  - intros w. apply (Array_sort_stable _ weight (fun _ => True)); auto.
Qed.

End Properties.

(** ** The pairwise TF-IDF computation *)

(** In a pairwise TF-IDF computation on two token sequences without the
    name of a member of [Object.prototype], the vocabulary is the list of
    the distinct tokens of the two documents in the order of their first
    occurrence; each term of it is in one or in both of the documents and
    its IDF is [ln((N+1)/(df+1)) + 1] with [N = 2] and [df] the number of
    the two documents that contain it; this IDF is positive; and each
    vector has, in the order of the vocabulary, the number of occurrences
    of the term in its document times the IDF of the term. *)
Theorem pairwise_tfidf (resumeTokens jobTokens : list string) :
  noPrototypeMember (resumeTokens ++ jobTokens) ->
  let allDocs := [resumeTokens; jobTokens] in
  let idf := computeIdf allDocs in
  let vocab := Set_of (resumeTokens ++ jobTokens) in
  let weightIn doc term :=
    (INR (occurrences term doc)
     * (ln ((2 + 1) / (INR (docFreq term allDocs) + 1)) + 1))%R in
  vocab = firstSeen (resumeTokens ++ jobTokens)
  /\ NoDup vocab
  /\ (forall term, In term vocab <-> In term resumeTokens \/ In term jobTokens)
  /\ Forall
       (fun term =>
          (1 <= docFreq term allDocs <= 2)%nat
          /\ get idf term
             = Some (Num (ln ((2 + 1) / (INR (docFreq term allDocs) + 1)) + 1)%R)
          /\ (0 < ln ((2 + 1) / (INR (docFreq term allDocs) + 1)) + 1)%R)
       vocab
  /\ tfidfVector resumeTokens idf vocab
     = vec (map (weightIn resumeTokens) vocab)
  /\ tfidfVector jobTokens idf vocab = vec (map (weightIn jobTokens) vocab).
Proof.
  intros Hp. cbv zeta. rewrite Set_of_firstSeen.
  assert (Hidf : forall df, idfOf 2 df
                            = (ln ((2 + 1) / (INR df + 1)) + 1)%R).
  { intros df. unfold idfOf. simpl INR.
    now replace (1 + 1 + 1)%R with (2 + 1)%R by ring. }
  assert (Hplain : forall t, In t (firstSeen (resumeTokens ++ jobTokens)) ->
                             isPrototypeMember t = false).
  { intros t Ht. apply (proj1 (firstSeen_In _ _)) in Ht.
    unfold noPrototypeMember in Hp. rewrite Forall_forall in Hp. auto. }
  assert (Hvec : forall doc,
             In doc [resumeTokens; jobTokens] ->
             tfidfVector doc (computeIdf [resumeTokens; jobTokens])
               (firstSeen (resumeTokens ++ jobTokens))
             = vec (map (fun term =>
                           (INR (occurrences term doc)
                            * (ln ((2 + 1)
                                   / (INR (docFreq term
                                             [resumeTokens; jobTokens]) + 1))
                               + 1))%R)
                      (firstSeen (resumeTokens ++ jobTokens)))).
  { intros doc Hd. rewrite tfidfVector_entries by assumption.
    unfold vec. rewrite map_map. apply map_ext_in. intros t Ht.
    unfold entry, tfidf. rewrite (Hplain t Ht). simpl List.length.
    now rewrite Hidf. }
  split; [reflexivity|]. split; [apply firstSeen_NoDup|].
  split; [intros term; now rewrite firstSeen_In, in_app_iff|].
  split; [|split].
  - apply Forall_forall. intros term Hin. pose proof (Hplain term Hin) as Ht.
    apply (proj1 (firstSeen_In _ _)) in Hin. apply in_app_iff in Hin.
    assert (Hpos : (0 < docFreq term [resumeTokens; jobTokens])%nat).
    { apply docFreq_pos. destruct Hin; eauto using in_eq, in_cons. }
    pose proof (docFreq_le term [resumeTokens; jobTokens]) as Hle.
    simpl List.length in Hle.
    split; [lia|].
    rewrite computeIdf_plain by assumption.
    apply Nat.ltb_lt in Hpos. rewrite Hpos.
    simpl List.length. rewrite Hidf. split; [reflexivity|].
    rewrite <- Hidf. pose proof (idfOf_ge_1 2 _ Hle). lra.
  - apply Hvec. now left.
  - apply Hvec. right. now left.
Qed.

Lemma pairwise_tfidf_witness :
  let resumeTokens := ["concept"; "artist"; "artist"] in
  let jobTokens := ["character"; "artist"] in
  let allDocs := [resumeTokens; jobTokens] in
  let idf := computeIdf allDocs in
  let vocab := Set_of (resumeTokens ++ jobTokens) in
  let weightIn doc term :=
    (INR (occurrences term doc)
     * (ln ((2 + 1) / (INR (docFreq term allDocs) + 1)) + 1))%R in
  vocab = firstSeen (resumeTokens ++ jobTokens)
  /\ NoDup vocab
  /\ (forall term, In term vocab <-> In term resumeTokens \/ In term jobTokens)
  /\ Forall
       (fun term =>
          (1 <= docFreq term allDocs <= 2)%nat
          /\ get idf term
             = Some (Num (ln ((2 + 1) / (INR (docFreq term allDocs) + 1)) + 1)%R)
          /\ (0 < ln ((2 + 1) / (INR (docFreq term allDocs) + 1)) + 1)%R)
       vocab
  /\ tfidfVector resumeTokens idf vocab
     = vec (map (weightIn resumeTokens) vocab)
  /\ tfidfVector jobTokens idf vocab = vec (map (weightIn jobTokens) vocab).
Proof.
  apply (pairwise_tfidf ["concept"; "artist"; "artist"] ["character"; "artist"]).
  repeat constructor.
Defined.

(** ** The name of a member of [Object.prototype] as a token *)

(** C6 on the tokens [artist constructor] and [concept artist]: the
    property [df.constructor] is a text, so that the IDF of the term
    [constructor] is [NaN], and so is its entry in both vectors. *)
Theorem computeIdf_constructor_NaN :
  let resumeTokens := ["artist"; "constructor"] in
  let jobTokens := ["concept"; "artist"] in
  let idf := computeIdf [resumeTokens; jobTokens] in
  let vocab := Set_of (resumeTokens ++ jobTokens) in
  vocab = ["artist"; "constructor"; "concept"]
  /\ get idf "constructor" = Some NaN
  /\ nth_error (tfidfVector resumeTokens idf vocab) 1 = Some NaN
  /\ nth_error (tfidfVector jobTokens idf vocab) 1 = Some NaN.
Proof.
  cbv zeta. split; [reflexivity|]. split; [reflexivity|].
  rewrite !tfidfVector_entries by (simpl; tauto).
  split; reflexivity.
Qed.

(** C1 on the resume [artist constructor]: the semantic score and the
    final score are [NaN]. *)
Theorem finalMatchScore_constructor_NaN :
  finalMatchScore Natural.WordTokenizer_tokenize []
    (Some "artist constructor")
    (jobWith "1" (Some ["artist"]) (Some "concept artist"))
  = {| final := NaN; kwScore := Num 100%Z; semScore := NaN |}.
Proof.
  unfold finalMatchScore. cbn [keywords description jobWith].
  rewrite semanticSimilarity_member;
    [| vm_compute; discriminate | vm_compute; discriminate | reflexivity].
  rewrite keywordMatchPercentage_round by discriminate.
  rewrite Math_round_quotient by (vm_compute; reflexivity).
  reflexivity.
Qed.

Lemma shownScore_of_scores (resumeText : string) (j : job) (z : Z) :
  (0 <= z)%Z ->
  final (finalMatchScore Natural.WordTokenizer_tokenize [] (Some resumeText) j)
  = Num z ->
  shownScore (toMatch Natural.WordTokenizer_tokenize [] resumeText j) = Num z.
Proof.
  intros Hz E. unfold shownScore, toMatch. cbv zeta. cbn [matchScore].
  rewrite E, <- (Z2N.id z) by assumption. apply parseInt_toString.
Qed.

(** C2 on three jobs, the second with the description [constructor]:
    the score of the second is shown as [NaN%], the comparator of the
    ranking gives [NaN] whenever it compares this entry with another one,
    and the three entries stay in the order of the input, the one of
    score 0 before the one of score 40. *)
Theorem rankJobs_comparator_NaN :
  let tokenizer := Natural.WordTokenizer_tokenize in
  let first := jobWith "1" None None in
  let second := jobWith "2" None (Some "constructor") in
  let third := jobWith "3" (Some ["artist"]) None in
  let m := toMatch tokenizer [] "artist" second in
  matchScore m = "NaN%"
  /\ shownScore m = NaN
  /\ (forall m', byMatchScore m m' = NaN /\ byMatchScore m' m = NaN)
  /\ rankJobs tokenizer [] "artist" [first; second; third]
     = map (toMatch tokenizer [] "artist") [first; second; third]
  /\ shownScore (toMatch tokenizer [] "artist" first) = Num 0%Z
  /\ shownScore (toMatch tokenizer [] "artist" third) = Num 40%Z.
Proof.
  cbv zeta.
  assert (E : matchScore
                (toMatch Natural.WordTokenizer_tokenize [] "artist"
                   (jobWith "2" None (Some "constructor")))
              = "NaN%").
  { unfold toMatch, finalMatchScore. cbn [keywords description jobWith].
    rewrite semanticSimilarity_member;
      [| vm_compute; discriminate | vm_compute; discriminate | reflexivity].
    reflexivity. }
  assert (Hcmp : forall m',
             byMatchScore
               (toMatch Natural.WordTokenizer_tokenize [] "artist"
                  (jobWith "2" None (Some "constructor"))) m' = NaN
             /\ byMatchScore m'
                  (toMatch Natural.WordTokenizer_tokenize [] "artist"
                     (jobWith "2" None (Some "constructor"))) = NaN).
  { intros m'. unfold byMatchScore. rewrite E. split; [|reflexivity].
    now destruct (parseInt (matchScore m')). }
  split; [exact E|]. split; [unfold shownScore; now rewrite E|].
  split; [exact Hcmp|]. split; [|split].
  - unfold rankJobs. fold byMatchScore. unfold Array_sort. cbn [map].
    set (mA := toMatch _ _ _ (jobWith "1" _ _)).
    set (mN := toMatch _ _ _ (jobWith "2" _ _)) in *.
    set (mB := toMatch _ _ _ (jobWith "3" _ _)).
    cbn [fold_right insert].
    rewrite (proj1 (Hcmp mB)). cbn [staysBefore insert].
    rewrite (proj2 (Hcmp mA)). reflexivity.
  - apply shownScore_of_scores; [lia|].
    unfold finalMatchScore. cbn [keywords description jobWith final].
    assert (Es : semanticSimilarity Natural.WordTokenizer_tokenize []
                   (Some "artist") (Some EmptyString) = Num 0%Z)
      by reflexivity.
    rewrite Es. simpl keywordMatchPercentage. simpl toNum. simpl nmul.
    simpl nadd. now rewrite weighted_round.
  - apply shownScore_of_scores; [lia|].
    unfold finalMatchScore. cbn [keywords description jobWith final].
    assert (Es : semanticSimilarity Natural.WordTokenizer_tokenize []
                   (Some "artist") (Some EmptyString) = Num 0%Z)
      by reflexivity.
    rewrite Es, keywordMatchPercentage_round by discriminate.
    rewrite Math_round_quotient by (vm_compute; reflexivity).
    simpl toNum. simpl nmul. simpl nadd. rewrite weighted_round.
    reflexivity.
Qed.

(** ** [cleanAndTokenize] on the tokenizer of [natural] *)

Lemma replace_runs_emptyClass (inRun : bool) (text : string) :
  replace_runs_from emptyClass " " inRun text = text.
Proof.
  revert inRun; induction text as [|c s IH]; intros inRun; simpl;
    [reflexivity|].
  now rewrite IH.
Qed.

Lemma isGap_cleanChar (c : ascii) :
  Natural.isGap (cleanChar c) = Natural.isGap c.
Proof. destruct c as [[] [] [] [] [] [] [] []]; reflexivity. Qed.

Lemma cleanChar_word (c : ascii) :
  Natural.isGap c = false -> cleanChar c = lowerChar c.
Proof. destruct c as [[] [] [] [] [] [] [] []]; simpl; intros H; try reflexivity; discriminate. Qed.

Lemma toLowerCase_app (s t : string) :
  toLowerCase (s ++ t)%string = (toLowerCase s ++ toLowerCase t)%string.
Proof. induction s as [|c s IH]; simpl; [reflexivity|]. now rewrite IH. Qed.

Lemma split_clean (inGap : bool) (cur text : string) :
  split_from Natural.isGap inGap (toLowerCase cur)
    (toLowerCase (replace_each notListed " " text))
  = map toLowerCase (split_from Natural.isGap inGap cur text).
Proof.
  revert inGap cur; induction text as [|c s IH]; intros inGap cur.
  - reflexivity.
  - assert (E : toLowerCase (replace_each notListed " " (String c s))
                = String (cleanChar c)
                    (toLowerCase (replace_each notListed " " s))).
    { unfold cleanChar. simpl. now destruct (notListed c). }
    rewrite E. cbn [split_from]. rewrite isGap_cleanChar.
    destruct (Natural.isGap c) eqn:Hc.
    + destruct inGap; cbn [map]; [apply IH|].
      f_equal. apply (IH true EmptyString).
    + rewrite cleanChar_word by assumption.
      rewrite <- IH, toLowerCase_app. reflexivity.
Qed.

Lemma toLowerCase_empty (t : string) :
  String.eqb (toLowerCase t) "" = String.eqb t "".
Proof. now destruct t. Qed.

Lemma lowerChar_space (c : ascii) :
  Ascii.eqb (lowerChar c) " " = Ascii.eqb c " ".
Proof. destruct c as [[] [] [] [] [] [] [] []]; reflexivity. Qed.

Lemma toLowerCase_space (t : string) :
  String.eqb (toLowerCase t) " " = String.eqb t " ".
Proof.
  destruct t as [|c [|d t]]; simpl; try reflexivity.
  - rewrite lowerChar_space. reflexivity.
  - rewrite lowerChar_space. reflexivity.
Qed.

Lemma discardEmpty_lower (l : list string) :
  Natural.discardEmpty (map toLowerCase l)
  = map toLowerCase (Natural.discardEmpty l).
Proof.
  unfold Natural.discardEmpty. induction l as [|t l IH]; simpl; [reflexivity|].
  rewrite toLowerCase_empty, toLowerCase_space.
  destruct (negb _); simpl; now rewrite IH.
Qed.

(** The pieces between gaps are made of word characters. *)
Lemma split_from_words (inGap : bool) (cur text : string) :
  allWordChars cur = true ->
  Forall (fun t => allWordChars t = true)
    (split_from Natural.isGap inGap cur text).
Proof.
  revert inGap cur; induction text as [|c s IH]; intros inGap cur Hcur; simpl.
  - now constructor.
  - destruct (Natural.isGap c) eqn:Hc.
    + destruct inGap; [now apply IH|]. constructor; [assumption|].
      now apply IH.
    + apply IH. clear IH. induction cur as [|d cur IHc]; simpl in *.
      * unfold Natural.isGap in Hc. apply negb_false_iff in Hc.
        now rewrite Hc.
      * apply andb_true_iff in Hcur as [H1 H2]. rewrite H1. now apply IHc.
Qed.

Lemma lowerChar_word (c : ascii) :
  Natural.isWordChar (lowerChar c) = Natural.isWordChar c.
Proof. destruct c as [[] [] [] [] [] [] [] []]; reflexivity. Qed.

Lemma allWordChars_lower (t : string) :
  allWordChars (toLowerCase t) = allWordChars t.
Proof.
  induction t as [|c t IH]; simpl; [reflexivity|].
  now rewrite lowerChar_word, IH.
Qed.

(** Whatever the tokenizer, the token sequence of a text that is not
    empty: the first replacement changes nothing, the class of its
    pattern being empty. *)
Lemma cleanAndTokenize_steps (tokenizer : string -> list string)
  (stopWords : list string) (c : ascii) (text : string) :
  cleanAndTokenize tokenizer stopWords (Some (String c text))
  = kept stopWords
      (tokenizer (toLowerCase (replace_each notListed " " (String c text)))).
Proof.
  unfold cleanAndTokenize, replace_runs.
  now rewrite replace_runs_emptyClass.
Qed.

(** C4, as the code has it. For empty or missing input
    [cleanAndTokenize] returns the empty sequence. For any other text,
    with the [WordTokenizer] of [natural], which splits at every run of
    characters other than letters, digits and [_], its result is: the
    maximal runs of ASCII letters, digits and [_] of the text,
    lowercased, without those of length at most 2 and without the stop
    words; so that white space, [#], [+], [-], [.] and every other
    character separate tokens and no token has one of them. *)
Theorem cleanAndTokenize_words (stopWords : list string) :
  (forall tokenizer,
      cleanAndTokenize tokenizer stopWords None = []
      /\ cleanAndTokenize tokenizer stopWords (Some EmptyString) = [])
  /\ (forall text,
        cleanAndTokenize Natural.WordTokenizer_tokenize stopWords (Some text)
        = kept stopWords
            (map toLowerCase (Natural.WordTokenizer_tokenize text)))
  /\ (forall text,
        Forall (fun t => allWordChars t = true)
          (cleanAndTokenize Natural.WordTokenizer_tokenize stopWords
             (Some text))).
Proof.
  assert (H4 : forall text,
             cleanAndTokenize Natural.WordTokenizer_tokenize stopWords
               (Some text)
             = kept stopWords
                 (map toLowerCase (Natural.WordTokenizer_tokenize text))).
  { intros [|c text]; [reflexivity|]. rewrite cleanAndTokenize_steps. f_equal.
    unfold Natural.WordTokenizer_tokenize, split_runs.
    rewrite <- discardEmpty_lower. f_equal.
    apply (split_clean false EmptyString). }
  split; [intros; split; reflexivity|].
  split; [exact H4|].
  intros text. rewrite H4. unfold kept.
  apply Forall_forall. intros t Ht. apply filter_In in Ht as [Ht _].
  apply in_map_iff in Ht as (u & <- & Hu).
  rewrite allWordChars_lower.
  unfold Natural.WordTokenizer_tokenize, Natural.discardEmpty in Hu.
  apply filter_In in Hu as [Hu _].
  pose proof (split_from_words false EmptyString text eq_refl) as Hall.
  rewrite Forall_forall in Hall. now apply Hall.
Qed.

(** C4 fails as stated: the tokens of [c++ node.js developer] are [node]
    and [developer], where splitting at white space would give [c++],
    [node.js] and [developer]. *)
Lemma cleanAndTokenize_splits_at_punctuation :
  cleanAndTokenize Natural.WordTokenizer_tokenize []
    (Some "c++ node.js developer")
  = ["node"; "developer"]
  /\ tokenize_spec [] (Some "c++ node.js developer")
     = ["c++"; "node.js"; "developer"].
Proof. split; reflexivity. Qed.

(** Whatever the tokenizer, a character that is not listed separates two
    words where stripping it would join them. *)
Lemma cleanAndTokenize_replaces_by_space (tokenizer : string -> list string) :
  cleanAndTokenize tokenizer [] (Some "concept,artist")
  = cleanAndTokenize tokenizer [] (Some "concept artist")
  /\ tokenize_spec [] (Some "concept,artist") = ["conceptartist"]
  /\ tokenize_spec [] (Some "concept artist") = ["concept"; "artist"].
Proof. repeat split; reflexivity. Qed.

(** ** [extractKeywords]: the ranking, the example of the specification,
    and a tie *)

(** C5, as the code has it. For a text none of whose tokens is the name
    of a member of [Object.prototype], [extractKeywords] gives each
    distinct token the weight 4 (a token of the domain vocabulary) or 1
    (any other) per occurrence and returns the first [limit] (20 when it
    is left out) of the distinct tokens in descending order of weight;
    tokens of one weight stand in the enumeration order of the properties
    of [freq]: the tokens that are array indices first, in ascending
    numeric order, then the others in the order of their first
    occurrence. In particular, in the text of the specification [design]
    has the weight 16, [artist] 12 and [concept] 8, and [design] comes
    first. *)
Theorem extractKeywords_ranking :
  (forall (tokenizer : string -> list string) (stopWords : list string)
          (text : option string) (limit : option nat),
      let tokens := cleanAndTokenize tokenizer stopWords text in
      let n := match limit with Some n => n | None => 20 end in
      let weight t := Z.of_nat (boost t * occurrences t tokens) in
      noPrototypeMember tokens ->
      exists ranked : list string,
        extractKeywords tokenizer stopWords text limit = firstn n ranked
        /\ Permutation ranked (firstSeen tokens)
        /\ StronglySorted (above weight) ranked
        /\ forall w : Z,
             filter (fun t => (weight t =? w)%Z) ranked
             = filter (fun t => (weight t =? w)%Z)
                 (enumerationOrder (firstSeen tokens)))
  /\ (let text :=
        "concept concept artist artist artist design design design design" in
      let tokens :=
        cleanAndTokenize Natural.WordTokenizer_tokenize [] (Some text) in
      extractKeywords Natural.WordTokenizer_tokenize [] (Some text) (Some 2)
      = ["design"; "artist"]
      /\ map (tokenWeight tokens) ["design"; "artist"; "concept"]
         = [16; 12; 8]).
Proof.
  split.
  - intros tokenizer stopWords text limit.
    apply extractKeywords_ranked.
  - split; reflexivity.
Qed.

(** The tokens [senior], [artist] and [2024]: [artist] weighs 4, the
    other two weigh 1, and [2024], an array index, stands before
    [senior]. *)
Lemma extractKeywords_ranking_witness :
  exists ranked : list string,
    extractKeywords Natural.WordTokenizer_tokenize []
      (Some "senior artist 2024") (Some 3)
    = firstn 3 ranked
    /\ ranked = ["artist"; "2024"; "senior"]
    /\ enumerationOrder (firstSeen ["senior"; "artist"; "2024"])
       = ["2024"; "senior"; "artist"].
Proof.
  destruct (proj1 extractKeywords_ranking Natural.WordTokenizer_tokenize []
              (Some "senior artist 2024") (Some 3))
    as (ranked & E & _).
  - vm_compute. repeat constructor.
  - exists ["artist"; "2024"; "senior"]. repeat split; reflexivity.
Defined.

(** C5 fails as stated: [2024] and [senior] have the weight 1, [senior]
    comes first in the text and [2024] comes first in the result. *)
Lemma extractKeywords_index_tokens_first :
  extractKeywords Natural.WordTokenizer_tokenize []
    (Some "senior artist 2024") (Some 3)
  = ["artist"; "2024"; "senior"]
  /\ extractKeywords_spec Natural.WordTokenizer_tokenize []
       (Some "senior artist 2024") 3
     = ["artist"; "senior"; "2024"].
Proof. split; reflexivity. Qed.

(** ** The scenarios of the specification *)

(** A resume that has every keyword of the job scores 100. *)
Lemma keywordMatchPercentage_formula_witness :
  keywordMatchPercentage Natural.WordTokenizer_tokenize ["and"; "the"]
    (Some "I am a concept artist specializing in stylized character illustration and digital painting")
    (Some ["concept"; "artist"; "character"; "illustration"; "digital";
           "painting"])
  = Num 100%Z.
Proof.
  destruct (keywordMatchPercentage_formula Natural.WordTokenizer_tokenize
              ["and"; "the"]
              (Some "I am a concept artist specializing in stylized character illustration and digital painting")
              ["concept"; "artist"; "character"; "illustration"; "digital";
               "painting"])
    as [_ E]; [discriminate|].
  rewrite E. reflexivity.
Defined.

Lemma norm_zeros : norm [0; 0]%R = 0%R.
Proof.
  unfold norm, sumSquares; simpl.
  replace (0 * 0 + (0 * 0 + 0))%R with 0%R by ring. apply sqrt_0.
Qed.

(** A text without token, and a vector of zeros. *)
Lemma degenerate_inputs_give_zero_witness :
  semanticSimilarity Natural.WordTokenizer_tokenize []
    (Some "an it") (Some "concept artist")
  = Num 0%Z
  /\ call_cosineSimilarity [0; 0]%R [1; 2]%R = Returns (Num 0%R).
Proof.
  destruct (degenerate_inputs_give_zero Natural.WordTokenizer_tokenize [])
    as (H1 & _ & H3).
  split.
  - apply H1. left. reflexivity.
  - apply H3. left. rewrite magnitude_norm, norm_zeros. reflexivity.
Defined.

(** The scores of the scenario of the specification are integers between
    0 and 100. *)
Lemma finalMatchScore_range_witness :
  exists f kw sem : Z,
    finalMatchScore Natural.WordTokenizer_tokenize ["and"; "the"]
      (Some "I am a concept artist specializing in stylized character illustration and digital painting")
      (jobWith "1"
         (Some ["concept"; "artist"; "character"; "illustration"; "digital";
                "painting"])
         (Some "We need a 2D character artist with strong illustration and painting skills"))
    = {| final := Num f; kwScore := Num kw; semScore := Num sem |}
    /\ (0 <= f <= 100)%Z /\ (0 <= kw <= 100)%Z /\ (0 <= sem <= 100)%Z
    /\ Num f = Math_round (Num (4 / 10 * IZR kw + 6 / 10 * IZR sem)%R)
    /\ f = roundDiv (4 * kw + 6 * sem) 10.
Proof.
  apply finalMatchScore_range. vm_compute. repeat constructor.
Defined.

(** Two jobs ranked for one resume. *)
Lemma rankJobs_sorted_stable_witness :
  let tokenizer := Natural.WordTokenizer_tokenize in
  let storedJobs :=
    [jobWith "1" (Some ["painting"]) (Some "painting skills");
     jobWith "2" (Some ["concept"; "artist"]) (Some "concept artist")] in
  let scored := map (toMatch tokenizer [] "concept artist") storedJobs in
  let ranked := rankJobs tokenizer [] "concept artist" storedJobs in
  Permutation ranked scored
  /\ List.length ranked = List.length storedJobs
  /\ Forall
       (fun j =>
          shownScore (toMatch tokenizer [] "concept artist" j)
          = final (finalMatchScore tokenizer [] (Some "concept artist") j))
       storedJobs
  /\ Forall (fun m => shownScore m = Num (scoreOf m)) ranked
  /\ StronglySorted (above scoreOf) ranked
  /\ forall s : Z,
       filter (fun m => (scoreOf m =? s)%Z) ranked
       = filter (fun m => (scoreOf m =? s)%Z) scored.
Proof.
  apply (rankJobs_sorted_stable Natural.WordTokenizer_tokenize []
           "concept artist").
  - vm_compute. repeat constructor.
  - repeat constructor.
Defined.

(** * Double precision *)

(** ** Numbers *)

Lemma sameFloat_eq (x y : Binary64.float) : sameFloat x y = true -> x = y.
Proof.
  destruct x as [s|s| |s m e], y as [s'|s'| |s' m' e']; simpl;
    try discriminate; try reflexivity.
  - intros H. apply eqb_prop in H. now subst.
  - intros H. apply eqb_prop in H. now subst.
  - intros H. apply andb_prop in H. destruct H as [H He].
    apply andb_prop in H. destruct H as [Hs Hm].
    apply eqb_prop in Hs. apply Pos.eqb_eq in Hm. apply Z.eqb_eq in He.
    now subst.
Qed.


Lemma div_nan (x : Binary64.float) : Binary64.div x S754_nan = S754_nan.
Proof. now destruct x. Qed.

(** ** Vectors *)

Section Vectors64.

Let dotStep (a b : list Binary64.float) (s : Binary64.float) (i : nat)
  : Binary64.float :=
  Binary64.add s (Binary64.mul (Binary64.index a i) (Binary64.index b i)).





Lemma magnitude64_dot (a : list Binary64.float) :
  Binary64.magnitude a = Binary64.Math_sqrt (Binary64.dotProduct a a).
Proof. reflexivity. Qed.

End Vectors64.



(** ** [keywordMatchPercentage] in double precision *)

Lemma percentage64_checked :
  forallb
    (fun n =>
       forallb
         (fun m =>
            sameFloat (percentage64 m n)
              (Binary64.ofZ (roundDiv (100 * Z.of_nat m) (Z.of_nat n))))
         (seq 0 (S n)))
    (seq 1 39)
  = true.
Proof. vm_compute. reflexivity. Qed.

(** Below 40, the percentage as the code computes it is the exact
    quotient rounded to the nearest integer. *)
Lemma percentage64_exact (m n : nat) :
  (0 < n < 40)%nat -> (m <= n)%nat ->
  percentage64 m n
  = Binary64.ofZ (roundDiv (100 * Z.of_nat m) (Z.of_nat n)).
Proof.
  intros Hn Hm. pose proof percentage64_checked as H.
  rewrite forallb_forall in H.
  assert (Hin : In n (seq 1 39)) by (apply in_seq; lia).
  specialize (H n Hin). rewrite forallb_forall in H.
  apply sameFloat_eq, H, in_seq. lia.
Qed.

Section Percentage64.

Variable tokenizer : string -> list string.
Variable stopWords : list string.

Local Notation "'tokensOf'" := (cleanAndTokenize tokenizer stopWords).

Lemma keywordMatchPercentage64_count (resumeText : option string)
  (jobKeywords : list string) :
  jobKeywords <> [] ->
  Binary64.keywordMatchPercentage tokenizer stopWords resumeText
    (Some jobKeywords)
  = percentage64 (matchedCount (firstSeen (tokensOf resumeText)) jobKeywords)
      (List.length jobKeywords).
Proof.
  intros Hne. destruct jobKeywords as [|k l]; [congruence|].
  unfold Binary64.keywordMatchPercentage. cbv iota zeta.
  rewrite matches_loop, Set_of_firstSeen. reflexivity.
Qed.

(** C3. For every resume text and every non-empty list of fewer than 40
    keywords, [keywordMatchPercentage], computed in double precision as the
    code does, is the integer nearest to [100 * matchedCount /
    jobKeywords.length] (the larger one of two that are equally near),
    where [matchedCount] is the number of keywords that are among the
    distinct tokens of the resume. *)
Theorem keywordMatchPercentage_short_lists (resumeText : option string)
  (jobKeywords : list string) :
  jobKeywords <> [] -> (List.length jobKeywords < 40)%nat ->
  let matchedCount :=
    matchedCount (firstSeen (tokensOf resumeText)) jobKeywords in
  let n := List.length jobKeywords in
  Binary64.keywordMatchPercentage tokenizer stopWords resumeText
    (Some jobKeywords)
  = Binary64.ofZ (roundDiv (100 * Z.of_nat matchedCount) (Z.of_nat n))
  /\ Num (roundDiv (100 * Z.of_nat matchedCount) (Z.of_nat n))
     = JS.Math_round (Num (100 * INR matchedCount / INR n)%R)
  /\ (0 <= roundDiv (100 * Z.of_nat matchedCount) (Z.of_nat n) <= 100)%Z.
Proof.
  intros Hne Hlen. cbv zeta.
  assert (Hpos : (0 < List.length jobKeywords)%nat)
    by (destruct jobKeywords; [congruence | simpl; lia]).
  pose proof (matchedCount_le (firstSeen (tokensOf resumeText)) jobKeywords)
    as Hle.
  split; [|split].
  - rewrite keywordMatchPercentage64_count by assumption.
    apply percentage64_exact; [lia | exact Hle].
  - rewrite <- Math_round_quotient by lia. do 2 apply f_equal.
    rewrite mult_IZR, <- !INR_IZR_INZ. reflexivity.
  - now apply roundDiv_percentage.
Qed.

End Percentage64.

Lemma keywordMatchPercentage_short_lists_witness :
  Binary64.keywordMatchPercentage Natural.WordTokenizer_tokenize
    ["and"; "the"]
    (Some "I am a concept artist specializing in stylized character illustration and digital painting")
    (Some ["concept"; "artist"; "character"; "illustration"; "digital";
           "painting"])
  = Binary64.ofZ 100.
Proof.
  apply (keywordMatchPercentage_short_lists Natural.WordTokenizer_tokenize
           ["and"; "the"]
           (Some "I am a concept artist specializing in stylized character illustration and digital painting")
           ["concept"; "artist"; "character"; "illustration"; "digital";
            "painting"]).
  - discriminate.
  - simpl. lia.
Defined.

(** C3 fails as stated for a list of 40 keywords of which the resume has
    23: the code divides first and multiplies then, [(23 / 40) * 100] is
    [57.49999999999999] in double precision, and [Math.round] gives 57,
    where the integer nearest to [100 * 23 / 40 = 57.5] is 58. *)
Lemma keywordMatchPercentage_23_of_40 :
  let resumeText :=
    Binary64.wordsOf
      [("concept", 1); ("artist", 1); ("character", 1); ("illustration", 1);
       ("digital", 1); ("painting", 1); ("anatomy", 1); ("stylized", 1);
       ("environment", 1); ("sketch", 1); ("photoshop", 1); ("procreate", 1);
       ("color", 1); ("lighting", 1); ("render", 1); ("visual", 1);
       ("design", 1); ("composition", 1); ("story", 1); ("ideation", 1);
       ("texture", 1); ("storyboard", 1); ("portfolio", 1)]%nat in
  let jobKeywords :=
    ["concept"; "artist"; "character"; "illustration"; "digital"; "painting";
     "anatomy"; "stylized"; "environment"; "sketch"; "photoshop"; "procreate";
     "color"; "lighting"; "render"; "visual"; "design"; "composition";
     "story"; "ideation"; "texture"; "storyboard"; "portfolio";
     "unity"; "unreal"; "blender"; "maya"; "zbrush"; "houdini"; "rigging";
     "animation"; "shader"; "python"; "scripting"; "agile"; "scrum";
     "leadership"; "mentoring"; "budget"; "travel"] in
  List.length jobKeywords = 40%nat
  /\ matchedCount
       (firstSeen
          (cleanAndTokenize Natural.WordTokenizer_tokenize []
             (Some resumeText)))
       jobKeywords
     = 23%nat
  /\ Binary64.keywordMatchPercentage Natural.WordTokenizer_tokenize []
       (Some resumeText) (Some jobKeywords)
     = Binary64.ofZ 57
  /\ Binary64.mul (Binary64.div (Binary64.ofZ 23) (Binary64.ofZ 40))
       (Binary64.ofZ 100)
     = S754_finite false 8092405580431359 (-47)
  /\ Binary64.ofZ 57 = S754_finite false 8022036836253696 (-47)
  /\ roundDiv (100 * 23) 40 = 58%Z.
Proof. vm_compute. repeat split; reflexivity. Qed.

(** ** Degenerate inputs in double precision *)

Lemma mul_zero_finite (x y : Binary64.float) :
  (isZero x = true /\ isFinite y = true)
  \/ (isFinite x = true /\ isZero y = true) ->
  Binary64.strictEqZero (Binary64.mul x y) = true.
Proof.
  intros [[Hx Hy]|[Hx Hy]];
    destruct x as [s|s| |s m e], y as [s'|s'| |s' m' e'];
    try discriminate; reflexivity.
Qed.

Lemma mul_zero_not_finite (x y : Binary64.float) :
  (isZero x = true /\ isFinite y = false)
  \/ (isFinite x = false /\ isZero y = true) ->
  Binary64.mul x y = S754_nan.
Proof.
  intros [[Hx Hy]|[Hx Hy]];
    destruct x as [s|s| |s m e], y as [s'|s'| |s' m' e'];
    try discriminate; reflexivity.
Qed.

(** C7. Degenerate inputs in double precision: [semanticSimilarity]
    returns 0 when one of the two texts has no token,
    [keywordMatchPercentage] returns 0 when the keyword list is empty or
    missing, and [cosineSimilarity] returns 0 when one of the two
    magnitudes is 0 and the other one is a finite number. When the other
    magnitude is [Infinity] or [NaN], it returns [NaN]: the product of the
    magnitudes is [NaN] then, which [denom === 0] does not catch. *)
Theorem degenerate_inputs_binary64 (tokenizer : string -> list string)
  (stopWords : list string) (Math_log : Binary64.float -> Binary64.float) :
  (forall resumeText jobDescription,
      cleanAndTokenize tokenizer stopWords resumeText = []
      \/ cleanAndTokenize tokenizer stopWords jobDescription = [] ->
      Binary64.semanticSimilarity tokenizer stopWords Math_log resumeText
        jobDescription
      = Binary64.zero)
  /\ (forall resumeText,
        Binary64.keywordMatchPercentage tokenizer stopWords resumeText
          (Some [])
        = Binary64.zero
        /\ Binary64.keywordMatchPercentage tokenizer stopWords resumeText None
           = Binary64.zero)
  /\ (forall vecA vecB,
        (isZero (Binary64.magnitude vecA) = true
         /\ isFinite (Binary64.magnitude vecB) = true)
        \/ (isFinite (Binary64.magnitude vecA) = true
            /\ isZero (Binary64.magnitude vecB) = true) ->
        Binary64.cosineSimilarity vecA vecB = Binary64.zero)
  /\ (forall vecA vecB,
        (isZero (Binary64.magnitude vecA) = true
         /\ isFinite (Binary64.magnitude vecB) = false)
        \/ (isFinite (Binary64.magnitude vecA) = false
            /\ isZero (Binary64.magnitude vecB) = true) ->
        Binary64.cosineSimilarity vecA vecB = S754_nan).
Proof.
  split; [|split; [|split]].
  - intros r j H. unfold Binary64.semanticSimilarity. cbv zeta.
    destruct H as [-> | ->]; [reflexivity|].
    now rewrite orb_true_r.
  - intros r. split; reflexivity.
  - intros a b H. unfold Binary64.cosineSimilarity. cbv zeta.
    now rewrite (mul_zero_finite _ _ H).
  - intros a b H. unfold Binary64.cosineSimilarity. cbv zeta.
    rewrite (mul_zero_not_finite _ _ H). cbn [Binary64.strictEqZero SFeqb].
    apply div_nan.
Qed.

(** C7 fails as stated for the vectors [[0]] and [[1e200]]: the first has
    the magnitude 0, the square of [1e200] overflows, so that the second
    has the magnitude [Infinity], and [0 * Infinity] is [NaN]. *)
Lemma cosineSimilarity_zero_and_overflow :
  Binary64.magnitude [Binary64.ofZ 0] = Binary64.zero
  /\ Binary64.magnitude [Binary64.ofZ (10 ^ 200)] = S754_infinity false
  /\ Binary64.cosineSimilarity [Binary64.ofZ 0] [Binary64.ofZ (10 ^ 200)]
     = S754_nan.
Proof. vm_compute. repeat split; reflexivity. Qed.

(** ** [cosineSimilarity] of a vector and itself, in double precision *)







(** ** [semanticSimilarity] in double precision *)

Section Similarity64.

Variable Math_log : Binary64.float -> Binary64.float.






Variable tokenizer : string -> list string.
Variable stopWords : list string.

Local Notation "'tokensOf'" := (cleanAndTokenize tokenizer stopWords).



End Similarity64.


